(** * Sodium::FileCryptor: blockwise authenticated file encryption

    A shallow embedding of [FileCryptor::FileCryptor], [FileCryptor::encrypt]
    and [FileCryptor::decrypt] (filecryptor.h / sodiumfilecryptor.cpp), with
    the iostream operations they use written out as functions on explicit
    stream states. *)

From Stdlib Require Import List ZArith Lia Bool Arith PeanoNat.
From Stdlib Require Import Strings.Byte.
Import ListNotations.

Set Implicit Arguments.

(** ** Byte buffers ([data_t] is a [std::vector<unsigned char>]) *)

Definition data_t := list byte.

(** [data_t v(n, '\0')] *)
Definition zeros (n : nat) : data_t := repeat x00 n.

(** [v.resize(n)]: keeps the first [n] bytes, pads with zero bytes. *)
Definition resize (v : data_t) (n : nat) : data_t :=
  firstn n v ++ zeros (n - length v).

(** Writing the bytes [d] through the pointer [v.data()]: the leading bytes of
    the storage are overwritten, the size of the vector is unchanged.  (When
    [d] is longer than [v] the source writes into the capacity the vector
    kept from before a shrinking [resize]; the vector is not used again
    after that happens.) *)
Definition store (v d : data_t) : data_t :=
  firstn (length v) d ++ skipn (length d) v.

Fixpoint data_eqb (a b : data_t) : bool :=
  match a, b with
  | [], [] => true
  | x :: a', y :: b' => Byte.eqb x y && data_eqb a' b'
  | _, _ => false
  end.

(** ** Fixed-width integers *)

Definition two64 : Z := (2 ^ 64)%Z.

(** Unary minus on a [std::size_t]. *)
Definition neg_size_t (n : nat) : Z := ((two64 - Z.of_nat n) mod two64)%Z.

(** Conversion of a [std::size_t] value to the signed [std::streamoff]. *)
Definition to_streamoff (u : Z) : Z :=
  (if u <? 2 ^ 63 then u else u - two64)%Z.

(** [size - d] where [size] is a [std::size_t] and [d] a [std::streamoff]:
    the difference is taken modulo 2^64. *)
Definition size_sub (size : nat) (d : Z) : nat :=
  Z.to_nat ((Z.of_nat size - d) mod two64)%Z.

(** ** Input streams *)

Record istream := mk_istream {
  content : data_t;     (* the bytes of the file *)
  gpos    : nat;        (* the get position *)
  failbit : bool;
  eofbit  : bool;
  gcount  : nat         (* characters extracted by the last unformatted read *)
}.

(** A freshly opened file. *)
Definition open_file (d : data_t) : istream := mk_istream d 0 false false 0.

Definition good (s : istream) : bool := negb (failbit s) && negb (eofbit s).

(** [istr.read(buf, n)]: extracts [n] characters; reaching the end of the
    input before [n] characters were extracted sets [eofbit] and [failbit].
    On a stream that is not good nothing is extracted and [failbit] is set. *)
Definition read (s : istream) (n : nat) : istream * data_t :=
  if good s then
    let avail := length (content s) - gpos s in
    if n <=? avail then
      (mk_istream (content s) (gpos s + n) false false n,
       firstn n (skipn (gpos s) (content s)))
    else
      (mk_istream (content s) (gpos s + avail) true true avail,
       skipn (gpos s) (content s))
  else
    (mk_istream (content s) (gpos s) true (eofbit s) 0, []).

(** [seekg]: clears [eofbit]; does nothing more on a failed stream; a target
    before the start of the file makes the seek fail. [gcount] is kept. *)
Definition seekg_abs (s : istream) (target : Z) : istream :=
  if failbit s then mk_istream (content s) (gpos s) true false (gcount s)
  else if (target <? 0)%Z then mk_istream (content s) (gpos s) true false (gcount s)
  else mk_istream (content s) (Z.to_nat target) false false (gcount s).

(** [ifs.seekg(off, std::ios_base::beg)] *)
Definition seekg_beg (s : istream) (off : Z) : istream := seekg_abs s off.

(** [ifs.seekg(off, std::ios_base::end)] *)
Definition seekg_end (s : istream) (off : Z) : istream :=
  seekg_abs s (Z.of_nat (length (content s)) + off).

(** [ifs.tellg()]: [pos_type(-1)] on a failed stream. *)
Definition tellg (s : istream) : Z :=
  if failbit s then (-1)%Z else Z.of_nat (gpos s).

(** ** Output streams *)

Record ostream := mk_ostream {
  obuf : data_t;        (* everything written so far *)
  obad : bool           (* the stream is in a failed state *)
}.

(** [ostr.write(p, n)]: nothing is written to a failed stream. *)
Definition write (s : ostream) (d : data_t) : ostream :=
  if obad s then s else mk_ostream (obuf s ++ d) false.

(** ** The primitives the codec is built on *)

Definition Key := data_t.

(** Modelled from the spec: the Block Cipher Engine ([CryptorAEAD]), the keyed
    hash ([crypto_generichash]), the nonce ([Nonce<NONCESIZE_AEAD>]) and the
    size constants of key.h and sodium.h are not part of the sources; they
    are taken as an interface, with [aead_decrypt] returning [None] where the
    Engine throws. *)
Class Sodium := {
  nonce_t : Type;
  increment : nonce_t -> nonce_t;
  MACSIZE : nat;
  KEYSIZE_AEAD : nat;
  HASHKEYSIZE_MIN : nat;
  HASHKEYSIZE_MAX : nat;
  HASHSIZE_MIN : nat;
  HASHSIZE_MAX : nat;
  aead_encrypt : data_t -> data_t -> Key -> nonce_t -> data_t;
  aead_decrypt : data_t -> data_t -> Key -> nonce_t -> option data_t;
  generichash : Key -> nat -> data_t -> data_t
}.

(** Modelled from the spec: the contract of the primitives (sections 3 and 6):
    a ciphertext block has [MACSIZE] bytes more than its plaintext, the
    Engine recovers what it sealed under the same key and nonce and fails on
    malformed input (a buffer too short to hold a tag), a digest has the
    requested size, and the size bounds are ordered. *)
Class SodiumContract (Sod : Sodium) := {
  MACSIZE_pos : 0 < MACSIZE;
  HASHSIZE_MIN_pos : 0 < HASHSIZE_MIN;
  HASHSIZE_MAX_small : (Z.of_nat HASHSIZE_MAX < 2 ^ 63)%Z;
  aead_encrypt_length : forall h p k n,
    length (aead_encrypt h p k n) = MACSIZE + length p;
  aead_decrypt_encrypt : forall h p k n,
    aead_decrypt h (aead_encrypt h p k n) k n = Some p;
  aead_decrypt_short : forall h c k n,
    length c < MACSIZE -> aead_decrypt h c k n = None;
  generichash_length : forall k n m,
    HASHSIZE_MIN <= n <= HASHSIZE_MAX -> length (generichash k n m) = n
}.

(** The streaming hash API: [crypto_generichash_init], [_update], [_final].
    The state records the key and the bytes absorbed so far. *)
Record crypto_generichash_state := mk_hash_state {
  hs_key : Key;
  hs_outlen : nat;
  hs_msg : data_t
}.

Definition crypto_generichash_init (k : Key) (outlen : nat)
  : crypto_generichash_state := mk_hash_state k outlen [].

Definition crypto_generichash_update (st : crypto_generichash_state)
  (d : data_t) : crypto_generichash_state :=
  mk_hash_state (hs_key st) (hs_outlen st) (hs_msg st ++ d).

Definition crypto_generichash_final `{Sodium} (st : crypto_generichash_state)
  (outlen : nat) : data_t :=
  generichash (hs_key st) outlen (hs_msg st).

(** ** Errors and outcomes *)

(** The [std::runtime_error]s of the source, one constructor per message;
    [Engine_failure] is an exception thrown by the Engine and propagated. *)
Inductive error :=
| Wrong_key_size
| Wrong_blocksize
| Hash_key_too_small
| Hash_key_too_big
| Encrypt_error_writing_full_chunk
| Encrypt_error_writing_final_chunk
| Encrypt_error_writing_hash
| Decrypt_cant_seek_to_end_for_hash
| Decrypt_read_partial_hash
| Decrypt_error_writing_full_chunk
| Decrypt_error_writing_final_chunk
| Decrypt_hash_mismatch
| Engine_failure.

Inductive outcome :=
| Returned
| Thrown (e : error)
| Out_of_fuel.

Section Codec.

Context `{Sod : Sodium}.

(** One call of the Engine: the nonce and the buffer handed to it. *)
Record aead_call := mk_call {
  call_nonce : nonce_t;
  call_input : data_t
}.

(** ** The codec object *)

Record FileCryptor := mk_FileCryptor {
  key_ : Key;
  nonce_ : nonce_t;
  blocksize_ : nat;
  hashkey_ : Key;
  hashsize_ : nat
}.

(** [header_ {}]: the associated data is default-initialised by the
    constructor and never assigned. *)
Definition header_ : data_t := [].

(** [FileCryptor::FileCryptor] *)
Definition FileCryptor_new (key : Key) (nonce : nonce_t) (blocksize : nat)
  (hashkey : Key) (hashsize : nat) : error + FileCryptor :=
  if negb (length key =? KEYSIZE_AEAD) then inl Wrong_key_size
  else if blocksize <? 1 then inl Wrong_blocksize
  else if length hashkey <? HASHKEYSIZE_MIN then inl Hash_key_too_small
  else if HASHKEYSIZE_MAX <? length hashkey then inl Hash_key_too_big
  else inr (mk_FileCryptor key nonce blocksize hashkey hashsize).

(** ** encrypt *)

Record enc_state := mk_enc {
  e_istr : istream;
  e_ostr : ostream;
  e_state : crypto_generichash_state;
  e_plaintext : data_t;
  e_nonce : nonce_t;
  e_calls : list aead_call
}.

(** The loop [while (istr.read(plaintext.data(), blocksize_)) { ... }]. *)
Fixpoint encrypt_full_blocks (fuel : nat) (fc : FileCryptor) (st : enc_state)
  : enc_state * outcome :=
  match fuel with
  | 0 => (st, Out_of_fuel)
  | S fuel' =>
    let (istr, d) := read (e_istr st) (blocksize_ fc) in
    let plaintext := store (e_plaintext st) d in
    if failbit istr then
      (mk_enc istr (e_ostr st) (e_state st) plaintext (e_nonce st) (e_calls st),
       Returned)
    else
      let ciphertext := aead_encrypt header_ plaintext (key_ fc) (e_nonce st) in
      let calls := e_calls st ++ [mk_call (e_nonce st) plaintext] in
      let running_nonce := increment (e_nonce st) in
      let ostr := write (e_ostr st) ciphertext in
      if obad ostr then
        (mk_enc istr ostr (e_state st) plaintext running_nonce calls,
         Thrown Encrypt_error_writing_full_chunk)
      else
        let state := crypto_generichash_update (e_state st) ciphertext in
        encrypt_full_blocks fuel' fc
          (mk_enc istr ostr state plaintext running_nonce calls)
  end.

(** The final partial chunk: [if (s != 0) { ... }]. *)
Definition encrypt_final_chunk (fc : FileCryptor) (st : enc_state)
  : enc_state * outcome :=
  let s := gcount (e_istr st) in
  if negb (s =? 0) then
    let plaintext :=
      if negb (s =? length (e_plaintext st)) then resize (e_plaintext st) s
      else e_plaintext st in
    let ciphertext := aead_encrypt header_ plaintext (key_ fc) (e_nonce st) in
    let calls := e_calls st ++ [mk_call (e_nonce st) plaintext] in
    let ostr := write (e_ostr st) ciphertext in
    if obad ostr then
      (mk_enc (e_istr st) ostr (e_state st) plaintext (e_nonce st) calls,
       Thrown Encrypt_error_writing_final_chunk)
    else
      let state := crypto_generichash_update (e_state st) ciphertext in
      (mk_enc (e_istr st) ostr state plaintext (e_nonce st) calls, Returned)
  else (st, Returned).

(** The loop followed by the final partial chunk. *)
Definition encrypt_chunks (fuel : nat) (fc : FileCryptor) (st : enc_state)
  : enc_state * outcome :=
  match encrypt_full_blocks fuel fc st with
  | (st, Returned) => encrypt_final_chunk fc st
  | r => r
  end.

(** The state of [encrypt] before anything has been read. *)
Definition encrypt_start (fc : FileCryptor) (istr : istream) (ostr : ostream)
  : enc_state :=
  mk_enc istr ostr (crypto_generichash_init (hashkey_ fc) (hashsize_ fc))
    (zeros (blocksize_ fc)) (nonce_ fc) [].

(** [FileCryptor::encrypt].  The fuel bounds the iterations of the loop; a
    source of n bytes needs at most n + 1 of them when [blocksize_ >= 1]. *)
Definition encrypt (fc : FileCryptor) (istr : istream) (ostr : ostream)
  : enc_state * outcome :=
  let hash := zeros (hashsize_ fc) in
  match encrypt_chunks (S (length (content istr))) fc
          (encrypt_start fc istr ostr) with
  | (st, Returned) =>
    let hash :=
      store hash (crypto_generichash_final (e_state st) (length hash)) in
    let ostr := write (e_ostr st) hash in
    let st := mk_enc (e_istr st) ostr (e_state st) (e_plaintext st)
                (e_nonce st) (e_calls st) in
    if obad ostr then (st, Thrown Encrypt_error_writing_hash)
    else (st, Returned)
  | r => r
  end.

(** ** decrypt *)

Record dec_state := mk_dec {
  d_ifs : istream;
  d_ostr : ostream;
  d_state : crypto_generichash_state;
  d_ciphertext : data_t;
  d_nonce : nonce_t;
  d_in_mac : bool;
  d_calls : list aead_call
}.

(** The loop
    [while (ifs.read(ciphertext.data(), MACSIZE + blocksize_) && !in_mac)]. *)
Fixpoint decrypt_chunks (fuel : nat) (fc : FileCryptor) (hash_pos : Z)
  (st : dec_state) : dec_state * outcome :=
  match fuel with
  | 0 => (st, Out_of_fuel)
  | S fuel' =>
    let (ifs, d) := read (d_ifs st) (MACSIZE + blocksize_ fc) in
    let ciphertext := store (d_ciphertext st) d in
    if failbit ifs || d_in_mac st then
      (mk_dec ifs (d_ostr st) (d_state st) ciphertext (d_nonce st)
         (d_in_mac st) (d_calls st), Returned)
    else
      let current_pos := tellg ifs in
      let over := (current_pos >? hash_pos)%Z in
      let ciphertext :=
        if over then
          resize ciphertext
            (size_sub (length ciphertext) (current_pos - hash_pos))
        else ciphertext in
      let in_mac := if over then true else d_in_mac st in
      let calls := d_calls st ++ [mk_call (d_nonce st) ciphertext] in
      match aead_decrypt header_ ciphertext (key_ fc) (d_nonce st) with
      | None =>
        (mk_dec ifs (d_ostr st) (d_state st) ciphertext (d_nonce st) in_mac
           calls, Thrown Engine_failure)
      | Some plaintext =>
        let running_nonce := increment (d_nonce st) in
        let ostr := write (d_ostr st) plaintext in
        if obad ostr then
          (mk_dec ifs ostr (d_state st) ciphertext running_nonce in_mac calls,
           Thrown Decrypt_error_writing_full_chunk)
        else
          let state := crypto_generichash_update (d_state st) ciphertext in
          decrypt_chunks fuel' fc hash_pos
            (mk_dec ifs ostr state ciphertext running_nonce in_mac calls)
      end
  end.

(** The buffer handed to the Engine for the final partial chunk: the
    adjustments of [ciphertext] between [auto s = ifs.gcount()] and the call
    of [sc_aead_.decrypt]. *)
Definition final_ciphertext (fc : FileCryptor) (hash_pos : Z) (st : dec_state)
  : data_t :=
  let s := gcount (d_ifs st) in
  let ciphertext :=
    if negb (s =? length (d_ciphertext st)) then resize (d_ciphertext st) s
    else d_ciphertext st in
  let current_pos := tellg (d_ifs st) in
  if (current_pos >? hash_pos)%Z then
    resize ciphertext (size_sub (length ciphertext) (current_pos - hash_pos))
  else if (current_pos =? -1)%Z then
    if hashsize_ fc <? length ciphertext then
      resize ciphertext (length ciphertext - hashsize_ fc)
    else []
  else ciphertext.

(** The block [if (!in_mac) { ... }] after the loop. *)
Definition decrypt_final_chunk (fc : FileCryptor) (hash_pos : Z)
  (st : dec_state) : dec_state * outcome :=
  if negb (d_in_mac st) then
    let s := gcount (d_ifs st) in
    if negb (s =? 0) then
      let ciphertext := final_ciphertext fc hash_pos st in
      let calls := d_calls st ++ [mk_call (d_nonce st) ciphertext] in
      match aead_decrypt header_ ciphertext (key_ fc) (d_nonce st) with
      | None =>
        (mk_dec (d_ifs st) (d_ostr st) (d_state st) ciphertext (d_nonce st)
           (d_in_mac st) calls, Thrown Engine_failure)
      | Some plaintext =>
        let ostr := write (d_ostr st) plaintext in
        if obad ostr then
          (mk_dec (d_ifs st) ostr (d_state st) ciphertext (d_nonce st)
             (d_in_mac st) calls, Thrown Decrypt_error_writing_final_chunk)
        else
          let state := crypto_generichash_update (d_state st) ciphertext in
          (mk_dec (d_ifs st) ostr state ciphertext (d_nonce st) (d_in_mac st)
             calls, Returned)
      end
    else (st, Returned)
  else (st, Returned).

(** The state of [decrypt] before anything has been read. *)
Definition decrypt_start (fc : FileCryptor) (ifs : istream) (ostr : ostream)
  : dec_state :=
  mk_dec ifs ostr (crypto_generichash_init (hashkey_ fc) (hashsize_ fc))
    (zeros (MACSIZE + blocksize_ fc)) (nonce_ fc) false [].

(** Fetching the hash block at the end of the file: the seek, [hash_pos] and
    the read of [hash_saved]. *)
Definition fetch_saved_hash (fc : FileCryptor) (ifs : istream)
  : istream * Z * data_t * outcome :=
  let hash_saved := zeros (hashsize_ fc) in
  let ifs := seekg_end ifs (to_streamoff (neg_size_t (hashsize_ fc))) in
  if failbit ifs then
    (ifs, 0%Z, hash_saved, Thrown Decrypt_cant_seek_to_end_for_hash)
  else
    let hash_pos := tellg ifs in
    let (ifs, d) := read ifs (length hash_saved) in
    let hash_saved := store hash_saved d in
    if failbit ifs
       && (negb (gcount ifs =? 0) && negb (gcount ifs =? hashsize_ fc)) then
      (ifs, hash_pos, hash_saved, Thrown Decrypt_read_partial_hash)
    else (ifs, hash_pos, hash_saved, Returned).

(** The loop followed by the block after it. *)
Definition decrypt_loops (fuel : nat) (fc : FileCryptor) (hash_pos : Z)
  (st : dec_state) : dec_state * outcome :=
  match decrypt_chunks fuel fc hash_pos st with
  | (st, Returned) => decrypt_final_chunk fc hash_pos st
  | r => r
  end.

(** Everything [decrypt] does before the two hashes are compared; the result
    carries [hash_saved]. *)
Definition decrypt_blocks (fc : FileCryptor) (ifs : istream) (ostr : ostream)
  : dec_state * data_t * outcome :=
  match fetch_saved_hash fc ifs with
  | (ifs, hash_pos, hash_saved, Returned) =>
    let ifs := seekg_beg ifs 0 in
    let (st, r) := decrypt_loops (S (length (content ifs))) fc hash_pos
                     (decrypt_start fc ifs ostr) in
    (st, hash_saved, r)
  | (ifs, _, hash_saved, r) => (decrypt_start fc ifs ostr, hash_saved, r)
  end.

(** [FileCryptor::decrypt] *)
Definition decrypt (fc : FileCryptor) (ifs : istream) (ostr : ostream)
  : dec_state * outcome :=
  let hash := zeros (hashsize_ fc) in
  match decrypt_blocks fc ifs ostr with
  | (st, hash_saved, Returned) =>
    let hash := store hash (crypto_generichash_final (d_state st) (length hash)) in
    if negb (data_eqb hash hash_saved) then (st, Thrown Decrypt_hash_mismatch)
    else (st, Returned)
  | (st, _, r) => (st, r)
  end.

(** ** The blocks of an artifact, as sections 3 and 6 of the specification
    give them *)

(** The chunks of a plaintext: [bs] bytes each, the last one possibly
    shorter; no chunk is empty. *)
Fixpoint chunks_fuel (fuel bs : nat) (P : data_t) : list data_t :=
  match fuel with
  | 0 => []
  | S fuel' =>
    match P with
    | [] => []
    | _ => firstn bs P :: chunks_fuel fuel' bs (skipn bs P)
    end
  end.

Definition plaintext_chunks (bs : nat) (P : data_t) : list data_t :=
  chunks_fuel (length P) bs P.

(** The nonce after [k] increments. *)
Definition nonce_after (k : nat) (n : nonce_t) : nonce_t :=
  Nat.iter k increment n.

(** The nonces [n], [increment n], ... ([k] of them). *)
Fixpoint nonce_seq (n : nonce_t) (k : nat) : list nonce_t :=
  match k with
  | 0 => []
  | S k' => n :: nonce_seq (increment n) k'
  end.

(** Chunk number i sealed under the nonce incremented i times. *)
Fixpoint seal_chunks (k : Key) (n : nonce_t) (cs : list data_t)
  : list data_t :=
  match cs with
  | [] => []
  | c :: cs' => aead_encrypt header_ c k n :: seal_chunks k (increment n) cs'
  end.

(** The Engine calls that seal (or open) the buffers [bs] in turn. *)
Fixpoint calls_from (n : nonce_t) (bs : list data_t) : list aead_call :=
  match bs with
  | [] => []
  | b :: bs' => mk_call n b :: calls_from (increment n) bs'
  end.

Definition ciphertext_blocks (fc : FileCryptor) (P : data_t) : list data_t :=
  seal_chunks (key_ fc) (nonce_ fc) (plaintext_chunks (blocksize_ fc) P).

(** What the Engine answers to a call of its [decrypt]. *)
Definition opened (fc : FileCryptor) (c : aead_call) : option data_t :=
  aead_decrypt header_ (call_input c) (key_ fc) (call_nonce c).

(** The plaintexts recovered by a sequence of calls. *)
Definition recovered (fc : FileCryptor) (cs : list aead_call) : data_t :=
  concat (map (fun c => match opened fc c with Some p => p | None => [] end) cs).

(** The call verified: the Engine did not throw. *)
Definition verified (fc : FileCryptor) (c : aead_call) : Prop :=
  opened fc c <> None.

(** The facts that hold of the Engine calls [new] a stretch of [decrypt]
    adds, going from state [st] to state [st'] with outcome [oc]. *)
Definition decrypt_stretch (fc : FileCryptor) (st st' : dec_state) (oc : outcome)
  (new : list aead_call) : Prop :=
  d_calls st' = d_calls st ++ new /\
  map call_nonce new = nonce_seq (d_nonce st) (length new) /\
  (oc = Returned ->
   Forall (verified fc) new /\
   obuf (d_ostr st') = obuf (d_ostr st) ++ recovered fc new /\
   hs_msg (d_state st') = hs_msg (d_state st) ++ concat (map call_input new) /\
   hs_key (d_state st') = hs_key (d_state st)) /\
  (oc <> Thrown Decrypt_hash_mismatch /\
   oc <> Thrown Decrypt_cant_seek_to_end_for_hash /\
   oc <> Thrown Decrypt_read_partial_hash).

(** What a stretch of [decrypt] on a good sink leaves behind, whatever its
    outcome: the sink has received the plaintexts of the calls [new], and
    either the Engine threw at the last of them, every earlier one having
    verified, or every call verified. *)
Definition verified_writes (fc : FileCryptor) (st st' : dec_state)
  (oc : outcome) (new : list aead_call) : Prop :=
  d_calls st' = d_calls st ++ new /\
  d_ostr st' = mk_ostream (obuf (d_ostr st) ++ recovered fc new) false /\
  ((oc = Thrown Engine_failure /\
    exists pre c, new = pre ++ [c] /\ Forall (verified fc) pre /\
                  opened fc c = None)
   \/
   (oc <> Thrown Engine_failure /\ Forall (verified fc) new)).

(** The ciphertext blocks of an input (section 3 of the specification):
    its bytes before the last [hashsize_] ones, cut into chunks of
    [MACSIZE + blocksize_] bytes, the last chunk possibly shorter. *)
Definition input_blocks (fc : FileCryptor) (data : data_t) : list data_t :=
  plaintext_chunks (MACSIZE + blocksize_ fc)
    (firstn (length data - hashsize_ fc) data).

(** A valid configuration (section 4.1 of the specification): the sizes of
    the keys, the block size and the size of the digest are in range, and the
    size of a ciphertext block is a [std::size_t]. *)
Definition valid_configuration (fc : FileCryptor) : Prop :=
  length (key_ fc) = KEYSIZE_AEAD /\
  1 <= blocksize_ fc /\
  HASHKEYSIZE_MIN <= length (hashkey_ fc) <= HASHKEYSIZE_MAX /\
  HASHSIZE_MIN <= hashsize_ fc <= HASHSIZE_MAX /\
  (Z.of_nat (MACSIZE + blocksize_ fc) < two64)%Z.

End Codec.

(** ** A small instance of the primitives *)

Definition checksum (d : data_t) : N :=
  fold_right (fun b acc => (Byte.to_N b + 3 * acc) mod 256)%N 7%N d.

Definition byte_of_N (n : N) : byte :=
  match Byte.of_N (n mod 256) with Some b => b | None => x00 end.

Definition toy_tag (h p k : data_t) (n : nat) : data_t :=
  repeat (byte_of_N (checksum h + checksum p + checksum k + N.of_nat n)) 16.

Definition toy_pad (b : byte) : byte := byte_of_N (255 - Byte.to_N b).

Definition toy_encrypt (h p : data_t) (k : Key) (n : nat) : data_t :=
  toy_tag h p k n ++ map toy_pad p.

Definition toy_decrypt (h c : data_t) (k : Key) (n : nat) : option data_t :=
  if length c <? 16 then None
  else
    let p := map toy_pad (skipn 16 c) in
    if data_eqb (firstn 16 c) (toy_tag h p k n) then Some p else None.

Definition toy_hash (k : Key) (n : nat) (m : data_t) : data_t :=
  repeat (byte_of_N (checksum k + checksum m)) n.

(** Modelled from the spec: an Engine and an Accumulator as sections 2 and 6
    describe them, small enough to evaluate: the nonce is a counter, a block
    is sealed as a 16-byte tag followed by the transformed plaintext, and
    opening a block checks its size and its tag.  The size constants are
    those of libsodium. *)
#[export] Instance toy_sodium : Sodium := {|
  nonce_t := nat;
  increment := Nat.succ;
  MACSIZE := 16;
  KEYSIZE_AEAD := 32;
  HASHKEYSIZE_MIN := 16;
  HASHKEYSIZE_MAX := 64;
  HASHSIZE_MIN := 16;
  HASHSIZE_MAX := 64;
  aead_encrypt := toy_encrypt;
  aead_decrypt := toy_decrypt;
  generichash := toy_hash
|}.

(** ** Concrete configurations used in the examples *)

Definition example_key : Key := repeat x01 32.
Definition example_hashkey : Key := repeat x02 16.
Definition example_sink : ostream := mk_ostream [] false.

(** Blocks of two bytes, a digest of sixteen bytes. *)
Definition example_codec : FileCryptor (Sod := toy_sodium) :=
  mk_FileCryptor (Sod := toy_sodium) example_key 0 2 example_hashkey 16.

(** The ciphertext block of a one-byte plaintext followed by sixteen zero
    bytes in place of its digest. *)
Definition example_tampered : data_t :=
  concat (ciphertext_blocks example_codec [x41]) ++ zeros 16.

(** What [encrypt] writes for a plaintext of three bytes. *)
Definition example_artifact : data_t :=
  obuf (e_ostr (fst (encrypt example_codec (open_file [x41; x42; x43])
                       example_sink))).

(** A block sealed under the nonce 5, put where the block number 1 belongs. *)
Definition example_misplaced_block : data_t :=
  toy_encrypt [] [x43; x44] example_key 5.

(** One block sealed by [encrypt], the misplaced block, sixteen more bytes. *)
Definition example_misplaced : data_t :=
  concat (seal_chunks (Sod := toy_sodium) example_key 0 [[x41; x42]])
  ++ example_misplaced_block ++ zeros 16.

(** A codec with a block size of zero, which the constructor refuses. *)
Definition example_codec_zero : FileCryptor (Sod := toy_sodium) :=
  mk_FileCryptor (Sod := toy_sodium) example_key 0 0 example_hashkey 16.

(** What [encrypt] writes for a plaintext of exactly one block. *)
Definition example_aligned : data_t :=
  obuf (e_ostr (fst (encrypt example_codec (open_file [x41; x42])
                       example_sink))).

(** The same block followed by sixteen zero bytes in place of its digest. *)
Definition example_aligned_tampered : data_t :=
  concat (ciphertext_blocks example_codec [x41; x42]) ++ zeros 16.

(** * Properties *)

(** ** Buffers *)

Lemma zeros_length n : length (zeros n) = n.
Proof. apply repeat_length. Qed.

Lemma store_full (v d : data_t) : length d = length v -> store v d = d.
Proof.
  intros E. unfold store. rewrite <- E, firstn_all, skipn_all2 by lia.
  apply app_nil_r.
Qed.

Lemma resize_prefix (a b : data_t) : resize (a ++ b) (length a) = a.
Proof.
  unfold resize. rewrite firstn_app, firstn_all, Nat.sub_diag, length_app.
  simpl. replace (length a - _) with 0 by lia. simpl. now rewrite !app_nil_r.
Qed.

Lemma store_prefix (v d : data_t) :
  length d <= length v -> store v d = d ++ skipn (length d) v.
Proof.
  intros L. unfold store. now rewrite firstn_all2 by lia.
Qed.

Lemma resize_store_prefix (v d : data_t) :
  length d <= length v -> resize (store v d) (length d) = d.
Proof.
  intros L. rewrite store_prefix by trivial. apply resize_prefix.
Qed.

Lemma store_length (v d : data_t) :
  length d <= length v -> length (store v d) = length v.
Proof.
  intros L. unfold store. rewrite length_app, length_firstn, length_skipn. lia.
Qed.

Lemma data_eqb_eq (a b : data_t) : data_eqb a b = true <-> a = b.
Proof.
  revert b. induction a as [|x a IH]; intros [|y b]; simpl;
    try (split; [discriminate | discriminate]); try tauto.
  rewrite andb_true_iff, IH. split.
  - intros [H1 H2]. f_equal; trivial.
    now apply Byte.byte_dec_bl.
  - intros H. injection H as -> ->. split; trivial.
    now apply Byte.byte_dec_lb.
Qed.

Lemma data_eqb_refl (a : data_t) : data_eqb a a = true.
Proof. now apply data_eqb_eq. Qed.

(** ** Streams *)

Lemma read_enough (s : istream) (n : nat) :
  good s = true -> n <= length (skipn (gpos s) (content s)) ->
  read s n = (mk_istream (content s) (gpos s + n) false false n,
              firstn n (skipn (gpos s) (content s))).
Proof.
  intros G L. unfold read. rewrite G. rewrite length_skipn in L.
  destruct (Nat.leb_spec n (length (content s) - gpos s)); [reflexivity | lia].
Qed.

Lemma read_short (s : istream) (n : nat) :
  good s = true -> length (skipn (gpos s) (content s)) < n ->
  read s n =
  (mk_istream (content s) (gpos s + length (skipn (gpos s) (content s)))
     true true (length (skipn (gpos s) (content s))),
   skipn (gpos s) (content s)).
Proof.
  intros G L. unfold read. rewrite G. rewrite length_skipn in *.
  destruct (Nat.leb_spec n (length (content s) - gpos s)); [lia | reflexivity].
Qed.

Lemma firstn_exact {A} (a b : list A) (n : nat) :
  length a = n -> firstn n (a ++ b) = a.
Proof.
  intros <-. now rewrite firstn_app, firstn_all, Nat.sub_diag, app_nil_r.
Qed.

Lemma skipn_exact {A} (a b : list A) (n : nat) :
  length a = n -> skipn n (a ++ b) = b.
Proof.
  intros <-. now rewrite skipn_app, skipn_all, Nat.sub_diag.
Qed.

Lemma skipn_add {A} (l : list A) (a b : nat) :
  skipn (a + b) l = skipn b (skipn a l).
Proof. rewrite skipn_skipn. f_equal. lia. Qed.

(** ** The instance satisfies the contract *)

Lemma toy_pad_involutive (b : byte) : toy_pad (toy_pad b) = b.
Proof. destruct b; reflexivity. Qed.

Lemma toy_tag_length h p k n : length (toy_tag h p k n) = 16.
Proof. apply repeat_length. Qed.

Lemma toy_encrypt_length h p k n : length (toy_encrypt h p k n) = 16 + length p.
Proof.
  unfold toy_encrypt. now rewrite length_app, toy_tag_length, length_map.
Qed.

Lemma toy_decrypt_encrypt h p k n :
  toy_decrypt h (toy_encrypt h p k n) k n = Some p.
Proof.
  unfold toy_decrypt. rewrite toy_encrypt_length.
  destruct (Nat.ltb_spec (16 + length p) 16); [lia |].
  unfold toy_encrypt.
  rewrite (skipn_exact _ _ (toy_tag_length h p k n)).
  rewrite (firstn_exact _ _ (toy_tag_length h p k n)), map_map.
  rewrite (map_ext _ (fun x => x) toy_pad_involutive), map_id.
  now rewrite data_eqb_refl.
Qed.

Lemma toy_decrypt_short h c k n : length c < 16 -> toy_decrypt h c k n = None.
Proof.
  intros L. unfold toy_decrypt.
  destruct (Nat.ltb_spec (length c) 16); [reflexivity | lia].
Qed.

#[export] Instance toy_contract : SodiumContract toy_sodium.
Proof.
  constructor.
  - exact (Nat.lt_0_succ 15).
  - exact (Nat.lt_0_succ 15).
  - reflexivity.
  - exact toy_encrypt_length.
  - exact toy_decrypt_encrypt.
  - exact toy_decrypt_short.
  - intros k n m _. apply repeat_length.
Qed.

Section CodecProperties.

Context `{Sod : Sodium} {HC : SodiumContract Sod}.

(** ** Construction *)

Lemma FileCryptor_new_inr key nonce bs hk hs fc :
  FileCryptor_new key nonce bs hk hs = inr fc ->
  fc = mk_FileCryptor key nonce bs hk hs /\
  length key = KEYSIZE_AEAD /\ 1 <= bs /\
  HASHKEYSIZE_MIN <= length hk <= HASHKEYSIZE_MAX.
Proof.
  unfold FileCryptor_new.
  destruct (Nat.eqb_spec (length key) KEYSIZE_AEAD); simpl; [|discriminate].
  destruct (Nat.ltb_spec bs 1); [discriminate|].
  destruct (Nat.ltb_spec (length hk) HASHKEYSIZE_MIN); [discriminate|].
  destruct (Nat.ltb_spec HASHKEYSIZE_MAX (length hk)); [discriminate|].
  intros E. injection E as <-. repeat split; lia.
Qed.

(** ** Chunks *)

Lemma chunks_fuel_enough bs : 1 <= bs -> forall f f' P,
  length P <= f -> length P <= f' -> chunks_fuel f bs P = chunks_fuel f' bs P.
Proof.
  intros Hbs. induction f as [|f IH]; intros f' P L L'.
  - destruct P; [|simpl in L; lia]. destruct f'; reflexivity.
  - destruct f' as [|f'].
    + destruct P; [reflexivity | simpl in L'; lia].
    + simpl. destruct P as [|x P]; [reflexivity|]. f_equal.
      apply IH; rewrite length_skipn; cbn [length] in *; lia.
Qed.

Lemma chunks_fuel_nil f bs : chunks_fuel f bs [] = [].
Proof. destruct f; reflexivity. Qed.

(** ** encrypt *)

Lemma encrypt_chunks_step f fc st :
  encrypt_chunks (S f) fc st =
  let (istr, d) := read (e_istr st) (blocksize_ fc) in
  let plaintext := store (e_plaintext st) d in
  if failbit istr then
    encrypt_final_chunk fc
      (mk_enc istr (e_ostr st) (e_state st) plaintext (e_nonce st) (e_calls st))
  else
    let ciphertext := aead_encrypt header_ plaintext (key_ fc) (e_nonce st) in
    let calls := e_calls st ++ [mk_call (e_nonce st) plaintext] in
    let ostr := write (e_ostr st) ciphertext in
    if obad ostr then
      (mk_enc istr ostr (e_state st) plaintext (increment (e_nonce st)) calls,
       Thrown Encrypt_error_writing_full_chunk)
    else
      encrypt_chunks f fc
        (mk_enc istr ostr (crypto_generichash_update (e_state st) ciphertext)
           plaintext (increment (e_nonce st)) calls).
Proof.
  unfold encrypt_chunks. simpl.
  destruct (read (e_istr st) (blocksize_ fc)) as [istr d].
  destruct (failbit istr); [reflexivity|].
  destruct (obad (write _ _)); reflexivity.
Qed.

Lemma div_step a b : 1 <= b -> b <= a -> a / b = S ((a - b) / b).
Proof.
  intros Hb L. replace a with ((a - b) + 1 * b) at 1 by lia.
  rewrite Nat.div_add by lia. lia.
Qed.

Lemma mod_step a b : 1 <= b -> b <= a -> a mod b = (a - b) mod b.
Proof.
  intros Hb L. replace a with ((a - b) + 1 * b) at 1 by lia.
  now rewrite Nat.Div0.mod_add.
Qed.

Lemma nonce_after_S k n : nonce_after (S k) n = nonce_after k (increment n).
Proof. unfold nonce_after. now rewrite Nat.iter_succ_r. Qed.

(** What the loop and the final chunk of [encrypt] do on a source whose
    unread bytes are [R]. *)
Lemma encrypt_chunks_run fc : 1 <= blocksize_ fc -> forall fuel st,
  good (e_istr st) = true ->
  length (skipn (gpos (e_istr st)) (content (e_istr st))) < fuel ->
  length (e_plaintext st) = blocksize_ fc ->
  obad (e_ostr st) = false ->
  let R := skipn (gpos (e_istr st)) (content (e_istr st)) in
  let cs := chunks_fuel fuel (blocksize_ fc) R in
  let blocks := seal_chunks (key_ fc) (e_nonce st) cs in
  exists st',
    encrypt_chunks fuel fc st = (st', Returned) /\
    e_ostr st' = mk_ostream (obuf (e_ostr st) ++ concat blocks) false /\
    e_state st' =
      mk_hash_state (hs_key (e_state st)) (hs_outlen (e_state st))
        (hs_msg (e_state st) ++ concat blocks) /\
    e_calls st' = e_calls st ++ calls_from (e_nonce st) cs /\
    e_nonce st' = nonce_after (length R / blocksize_ fc) (e_nonce st).
Proof.
  intros Hbs. induction fuel as [|f IH]; intros st G L Hbuf Hsink; [lia|].
  cbv zeta. rewrite encrypt_chunks_step.
  set (R := skipn (gpos (e_istr st)) (content (e_istr st))) in *.
  destruct (le_lt_dec (blocksize_ fc) (length R)) as [Hfull|Hshort].
  - (* a full block *)
    rewrite read_enough by assumption. fold R. cbv zeta. cbn [failbit].
    rewrite store_full by (rewrite length_firstn; lia).
    unfold write at 1. rewrite Hsink. cbn [obad].
    unfold write. rewrite Hsink.
    edestruct (IH (mk_enc
        (mk_istream (content (e_istr st)) (gpos (e_istr st) + blocksize_ fc)
           false false (blocksize_ fc))
        (mk_ostream (obuf (e_ostr st) ++
           aead_encrypt header_ (firstn (blocksize_ fc) R) (key_ fc) (e_nonce st))
           false)
        (crypto_generichash_update (e_state st)
           (aead_encrypt header_ (firstn (blocksize_ fc) R) (key_ fc)
              (e_nonce st)))
        (firstn (blocksize_ fc) R) (increment (e_nonce st))
        (e_calls st ++ [mk_call (e_nonce st) (firstn (blocksize_ fc) R)])))
      as (st' & E & Ho & Hh & Hc & Hn); cbn [e_istr e_ostr e_state e_plaintext
        e_nonce e_calls content gpos failbit eofbit obuf obad good] in *.
    + reflexivity.
    + rewrite skipn_add. fold R. rewrite length_skipn. lia.
    + rewrite length_firstn. lia.
    + reflexivity.
    + exists st'. rewrite skipn_add in *. fold R in Ho, Hh, Hc, Hn |- *.
      assert (HR : R <> []) by (intros ->; simpl in Hfull; lia).
      cbn [chunks_fuel]. destruct R as [|x R']; [contradiction|].
      cbn [seal_chunks calls_from concat].
      cbn [crypto_generichash_update hs_key hs_outlen hs_msg] in Hh.
      rewrite E, Ho, Hh, Hc, Hn. rewrite <- !app_assoc. cbn [app].
      repeat split; trivial.
      rewrite length_skipn, (div_step (a := length (x :: R'))) by lia.
      now rewrite nonce_after_S.
  - (* the read comes up short: the final chunk *)
    rewrite read_short by assumption. fold R. cbv zeta. cbn [failbit].
    unfold encrypt_final_chunk. cbn [e_istr gcount e_plaintext e_nonce e_calls
      e_ostr e_state].
    rewrite Nat.div_small by lia. cbn [nonce_after Nat.iter nat_rect].
    destruct R as [|x R'] eqn:ER.
    + cbn [length Nat.eqb negb]. rewrite chunks_fuel_nil.
      cbn [seal_chunks calls_from concat]. rewrite !app_nil_r.
      eexists. split; [reflexivity|]. cbn [e_ostr e_state e_calls e_nonce].
      repeat split; trivial.
      * destruct (e_ostr st); simpl in *; now subst.
      * now destruct (e_state st).
    + rewrite <- ER in *. 
      assert (Hne : (length R =? 0) = false)
        by (apply Nat.eqb_neq; rewrite ER; simpl; lia).
      rewrite Hne. cbn [negb].
      rewrite store_length by lia.
      assert (Hne2 : (length R =? length (e_plaintext st)) = false)
        by (apply Nat.eqb_neq; lia).
      rewrite Hne2. cbn [negb].
      rewrite resize_store_prefix by lia.
      unfold write. rewrite Hsink. cbn [obad].
      eexists. split; [reflexivity|]. cbn [e_ostr e_state e_calls e_nonce].
      assert (Hcs : chunks_fuel (S f) (blocksize_ fc) R = [R]).
      { rewrite ER. cbn [chunks_fuel]. rewrite <- ER.
        rewrite firstn_all2, skipn_all2 by lia. now rewrite chunks_fuel_nil. }
      rewrite Hcs. cbn [seal_chunks calls_from concat]. rewrite !app_nil_r.
      repeat split; trivial.
Qed.


Lemma seal_chunks_lengths k n cs :
  map (@length byte) (seal_chunks k n cs) =
  map (fun c => MACSIZE + length c) cs.
Proof.
  revert n. induction cs as [|c cs IH]; intros n; simpl; [reflexivity|].
  now rewrite aead_encrypt_length, IH.
Qed.


Lemma calls_from_count n bs : length (calls_from n bs) = length bs.
Proof. revert n. induction bs; intros; simpl; auto. Qed.


Lemma chunks_fuel_concat bs : 1 <= bs -> forall f P,
  length P <= f -> concat (chunks_fuel f bs P) = P.
Proof.
  intros Hbs. induction f as [|f IH]; intros P L.
  - destruct P; [reflexivity | simpl in L; lia].
  - destruct P as [|x P]; [reflexivity|]. cbn [chunks_fuel concat].
    rewrite IH by (rewrite length_skipn; cbn [length] in *; lia).
    apply firstn_skipn.
Qed.

(** Every chunk but the last is a full block; the last one holds between one
    and [bs] bytes. *)
Lemma chunks_fuel_sizes bs : 1 <= bs -> forall f P i c,
  length P <= f -> nth_error (chunks_fuel f bs P) i = Some c ->
  1 <= length c <= bs /\
  (S i < length (chunks_fuel f bs P) -> length c = bs).
Proof.
  intros Hbs. induction f as [|f IH]; intros P i c L E.
  - destruct i; discriminate.
  - destruct P as [|x P]; [destruct i; discriminate|].
    cbn [chunks_fuel] in *. destruct i as [|i].
    + injection E as <-. rewrite length_firstn. cbn [length] in *.
      split; [lia|]. intros Hi.
      destruct (le_lt_dec bs (S (length P))); [lia|].
      rewrite skipn_all2, chunks_fuel_nil in Hi by (cbn [length]; lia).
      simpl in Hi. lia.
    + cbn [nth_error] in E. apply IH in E.
      * destruct E as [E1 E2]. split; [exact E1|]. intros Hi. apply E2.
        cbn [length] in Hi. lia.
      * rewrite length_skipn. cbn [length] in *. lia.
Qed.

(** [encrypt] on a good source with unread bytes [R] and a good sink. *)
Lemma encrypt_run fc istr ostr :
  1 <= blocksize_ fc -> good istr = true -> obad ostr = false ->
  let R := skipn (gpos istr) (content istr) in
  let cs := plaintext_chunks (blocksize_ fc) R in
  let blocks := seal_chunks (key_ fc) (nonce_ fc) cs in
  exists st',
    encrypt fc istr ostr = (st', Returned) /\
    e_ostr st' =
      mk_ostream
        (obuf ostr ++ concat blocks ++
         store (zeros (hashsize_ fc))
           (generichash (hashkey_ fc) (hashsize_ fc) (concat blocks))) false /\
    e_calls st' = calls_from (nonce_ fc) cs /\
    e_nonce st' = nonce_after (length R / blocksize_ fc) (nonce_ fc).
Proof.
  intros Hbs G Hsink. cbv zeta.
  destruct (@encrypt_chunks_run fc Hbs (S (length (content istr)))
              (encrypt_start fc istr ostr)) as (st1 & E & Ho & Hh & Hc & Hn);
    cbn [encrypt_start e_istr e_ostr e_state e_plaintext e_nonce e_calls] in *;
    trivial.
  - rewrite length_skipn. lia.
  - apply zeros_length.
  - rewrite (@chunks_fuel_enough (blocksize_ fc) Hbs _
               (length (skipn (gpos istr) (content istr)))) in Ho, Hh, Hc
      by (rewrite ?length_skipn; lia).
    fold (plaintext_chunks (blocksize_ fc) (skipn (gpos istr) (content istr)))
      in Ho, Hh, Hc.
    unfold encrypt. cbv zeta. rewrite E, Ho, Hh.
    unfold write. cbn [obad obuf crypto_generichash_final hs_key hs_msg
      crypto_generichash_init app].
    rewrite zeros_length.
    eexists. split; [reflexivity|]. cbn [e_ostr e_calls e_nonce].
    rewrite <- app_assoc. repeat split; trivial.
Qed.


(** ** decrypt: locating the stored digest *)

Lemma to_streamoff_neg (n : nat) :
  (Z.of_nat n < 2 ^ 63)%Z -> to_streamoff (neg_size_t n) = (- Z.of_nat n)%Z.
Proof.
  intros L. unfold to_streamoff, neg_size_t, two64.
  destruct n as [|n].
  - reflexivity.
  - rewrite Z.mod_small by lia.
    destruct (Z.ltb_spec (2 ^ 64 - Z.of_nat (S n)) (2 ^ 63)); lia.
Qed.

Lemma size_sub_exact (size : nat) (d : Z) :
  (Z.of_nat size < two64)%Z -> (0 <= d <= Z.of_nat size)%Z ->
  size_sub size d = size - Z.to_nat d.
Proof.
  intros L Hd. unfold size_sub. rewrite Z.mod_small by lia. lia.
Qed.

(** An input shorter than the digest: the seek fails. *)
Lemma fetch_saved_hash_short fc ifs :
  (Z.of_nat (hashsize_ fc) < 2 ^ 63)%Z ->
  length (content ifs) < hashsize_ fc ->
  snd (fetch_saved_hash fc ifs) = Thrown Decrypt_cant_seek_to_end_for_hash.
Proof.
  intros Hs L. unfold fetch_saved_hash, seekg_end, seekg_abs.
  rewrite to_streamoff_neg by assumption.
  destruct (failbit ifs); [reflexivity|].
  destruct (Z.ltb_spec (Z.of_nat (length (content ifs))
                        + - Z.of_nat (hashsize_ fc)) 0); [reflexivity | lia].
Qed.

(** An input that holds a digest: the last [hashsize_] bytes are read, the
    stream stays good. *)
Lemma fetch_saved_hash_ok fc ifs :
  (Z.of_nat (hashsize_ fc) < 2 ^ 63)%Z ->
  failbit ifs = false ->
  hashsize_ fc <= length (content ifs) ->
  fetch_saved_hash fc ifs =
  (mk_istream (content ifs) (length (content ifs)) false false (hashsize_ fc),
   Z.of_nat (length (content ifs) - hashsize_ fc),
   skipn (length (content ifs) - hashsize_ fc) (content ifs),
   Returned).
Proof.
  intros Hs F L. unfold fetch_saved_hash, seekg_end, seekg_abs.
  rewrite to_streamoff_neg, F by assumption.
  destruct (Z.ltb_spec (Z.of_nat (length (content ifs))
                        + - Z.of_nat (hashsize_ fc)) 0); [lia|].
  cbn [failbit tellg gpos].
  replace (Z.to_nat _) with (length (content ifs) - hashsize_ fc) by lia.
  rewrite zeros_length.
  rewrite read_enough;
    cbn [good failbit eofbit content gpos negb andb];
    [| reflexivity | rewrite length_skipn; lia].
  rewrite firstn_all2 by (rewrite length_skipn; lia).
  rewrite store_full by (rewrite length_skipn, zeros_length; lia).
  cbn [failbit andb].
  do 4 f_equal. lia.
Qed.

(** ** decrypt: the loops *)

Lemma decrypt_loops_step f fc hash_pos st :
  decrypt_loops (S f) fc hash_pos st =
  let (ifs, d) := read (d_ifs st) (MACSIZE + blocksize_ fc) in
  let ciphertext := store (d_ciphertext st) d in
  if failbit ifs || d_in_mac st then
    decrypt_final_chunk fc hash_pos
      (mk_dec ifs (d_ostr st) (d_state st) ciphertext (d_nonce st)
         (d_in_mac st) (d_calls st))
  else
    let current_pos := tellg ifs in
    let over := (current_pos >? hash_pos)%Z in
    let ciphertext :=
      if over then
        resize ciphertext
          (size_sub (length ciphertext) (current_pos - hash_pos))
      else ciphertext in
    let in_mac := if over then true else d_in_mac st in
    let calls := d_calls st ++ [mk_call (d_nonce st) ciphertext] in
    match aead_decrypt header_ ciphertext (key_ fc) (d_nonce st) with
    | None =>
      (mk_dec ifs (d_ostr st) (d_state st) ciphertext (d_nonce st) in_mac
         calls, Thrown Engine_failure)
    | Some plaintext =>
      let ostr := write (d_ostr st) plaintext in
      if obad ostr then
        (mk_dec ifs ostr (d_state st) ciphertext (increment (d_nonce st))
           in_mac calls, Thrown Decrypt_error_writing_full_chunk)
      else
        decrypt_loops f fc hash_pos
          (mk_dec ifs ostr (crypto_generichash_update (d_state st) ciphertext)
             ciphertext (increment (d_nonce st)) in_mac calls)
    end.
Proof.
  unfold decrypt_loops. simpl.
  destruct (read (d_ifs st) (MACSIZE + blocksize_ fc)) as [ifs d].
  destruct (failbit ifs || d_in_mac st); [reflexivity|]. cbv zeta.
  destruct (aead_decrypt _ _ _ _); [|reflexivity].
  destruct (obad (write _ _)); reflexivity.
Qed.

(** Once the digest boundary has been met the loop stops at its next test,
    and the block after the loop is skipped. *)
Lemma decrypt_loops_in_mac f fc hash_pos st :
  d_in_mac st = true ->
  exists ifs ct,
    decrypt_loops (S f) fc hash_pos st =
    (mk_dec ifs (d_ostr st) (d_state st) ct (d_nonce st) true (d_calls st),
     Returned).
Proof.
  intros M. rewrite decrypt_loops_step.
  destruct (read (d_ifs st) (MACSIZE + blocksize_ fc)) as [ifs d].
  cbv zeta. rewrite M, orb_true_r. unfold decrypt_final_chunk.
  cbn [d_in_mac negb]. eauto.
Qed.


(** The remaining input is the digest alone (the plaintext ended on a block
    boundary): the Engine is handed an empty buffer and throws. *)
Lemma decrypt_loops_digest_only fc f st D :
  1 <= length D -> length D = hashsize_ fc ->
  good (d_ifs st) = true ->
  skipn (gpos (d_ifs st)) (content (d_ifs st)) = D ->
  d_in_mac st = false ->
  length (d_ciphertext st) = MACSIZE + blocksize_ fc ->
  (Z.of_nat (MACSIZE + blocksize_ fc) < two64)%Z ->
  exists st',
    decrypt_loops (S f) fc (Z.of_nat (gpos (d_ifs st))) st =
      (st', Thrown Engine_failure) /\
    d_ostr st' = d_ostr st /\
    d_calls st' = d_calls st ++ [mk_call (d_nonce st) []].
Proof.
  intros HD Hhs G ER M Hbuf Hfit. rewrite decrypt_loops_step.
  pose proof MACSIZE_pos as HM.
  destruct (le_lt_dec (MACSIZE + blocksize_ fc) (length D)) as [Hfull|Hshort].
  - (* the read still succeeds: the loop cuts the chunk down to nothing *)
    rewrite read_enough by (rewrite ?ER; assumption). rewrite ER.
    cbv zeta. cbn [failbit tellg gpos]. rewrite M. cbn [orb].
    rewrite store_full by (rewrite length_firstn; lia).
    destruct (Z.gtb_spec (Z.of_nat (gpos (d_ifs st) + (MACSIZE + blocksize_ fc)))
                (Z.of_nat (gpos (d_ifs st)))); [|lia].
    rewrite length_firstn.
    replace (Nat.min _ _) with (MACSIZE + blocksize_ fc) by lia.
    rewrite size_sub_exact by lia.
    replace (_ - Z.to_nat _) with 0 by lia.
    change (resize _ 0) with (@nil byte).
    rewrite aead_decrypt_short by (simpl; lia).
    eexists. split; [reflexivity|]. split; reflexivity.
  - (* the read comes up short: the block after the loop clears the chunk *)
    rewrite read_short by (rewrite ?ER; assumption). rewrite ER.
    cbv zeta. cbn [failbit orb]. unfold decrypt_final_chunk, final_ciphertext.
    cbn [d_in_mac d_ifs gcount d_ciphertext tellg failbit d_nonce d_calls
         d_ostr d_state].
    rewrite M. cbn [negb].
    destruct (Nat.eqb_spec (length D) 0); [lia|]. cbn [negb].
    rewrite store_length by lia.
    destruct (Nat.eqb_spec (length D) (length (d_ciphertext st))); [lia|].
    cbn [negb]. rewrite resize_store_prefix by lia.
    destruct (Z.gtb_spec (-1) (Z.of_nat (gpos (d_ifs st)))); [lia|].
    cbn [Z.eqb Pos.eqb].
    destruct (Nat.ltb_spec (hashsize_ fc) (length D)); [lia|].
    rewrite aead_decrypt_short by (simpl; lia).
    eexists. split; [reflexivity|]. split; reflexivity.
Qed.

(** The remaining input is a short final block followed by the digest. *)
Lemma decrypt_loops_partial fc f st c D :
  1 <= length c < blocksize_ fc -> length D = hashsize_ fc ->
  good (d_ifs st) = true ->
  skipn (gpos (d_ifs st)) (content (d_ifs st)) =
    aead_encrypt header_ c (key_ fc) (d_nonce st) ++ D ->
  d_in_mac st = false ->
  length (d_ciphertext st) = MACSIZE + blocksize_ fc ->
  obad (d_ostr st) = false ->
  (Z.of_nat (MACSIZE + blocksize_ fc) < two64)%Z ->
  exists st',
    decrypt_loops (S (S f)) fc
      (Z.of_nat (gpos (d_ifs st) + (MACSIZE + length c))) st =
      (st', Returned) /\
    d_ostr st' = mk_ostream (obuf (d_ostr st) ++ c) false /\
    d_calls st' =
      d_calls st ++
      [mk_call (d_nonce st) (aead_encrypt header_ c (key_ fc) (d_nonce st))] /\
    d_state st' =
      crypto_generichash_update (d_state st)
        (aead_encrypt header_ c (key_ fc) (d_nonce st)).
Proof.
  intros Hc Hhs G ER M Hbuf Hsink Hfit. rewrite decrypt_loops_step.
  set (C := aead_encrypt header_ c (key_ fc) (d_nonce st)) in *.
  assert (HC' : length C = MACSIZE + length c) by apply aead_encrypt_length.
  destruct (le_lt_dec (MACSIZE + blocksize_ fc) (length (C ++ D)))
    as [Hfull|Hshort].
  - (* the read succeeds and runs into the digest *)
    rewrite read_enough by (rewrite ?ER; assumption). rewrite ER.
    cbv zeta. cbn [failbit tellg gpos]. rewrite M. cbn [orb].
    rewrite store_full by (rewrite length_firstn; lia).
    destruct (Z.gtb_spec (Z.of_nat (gpos (d_ifs st) + (MACSIZE + blocksize_ fc)))
                (Z.of_nat (gpos (d_ifs st) + (MACSIZE + length c)))); [|lia].
    rewrite length_firstn.
    replace (Nat.min _ _) with (MACSIZE + blocksize_ fc) by lia.
    rewrite size_sub_exact by lia.
    replace (_ - Z.to_nat _) with (length C) by lia.
    assert (HR : resize (firstn (MACSIZE + blocksize_ fc) (C ++ D)) (length C)
                 = C).
    { unfold resize. rewrite firstn_firstn.
      replace (Nat.min _ _) with (length C) by lia.
      rewrite (firstn_exact _ _ eq_refl), length_firstn.
      replace (_ - _) with 0 by lia. apply app_nil_r. }
    rewrite HR. subst C. rewrite aead_decrypt_encrypt.
    unfold write. rewrite Hsink. cbn [obad].
    edestruct (@decrypt_loops_in_mac f fc) as (ifs' & ct' & E);
      [| rewrite E; eexists; split; [reflexivity|]; repeat split].
    reflexivity.
  - (* the read comes up short: the block after the loop strips the digest *)
    rewrite read_short by (rewrite ?ER; assumption). rewrite ER.
    cbv zeta. cbn [failbit orb]. unfold decrypt_final_chunk, final_ciphertext.
    cbn [d_in_mac d_ifs gcount d_ciphertext tellg failbit d_nonce d_calls
         d_ostr d_state].
    rewrite M. cbn [negb].
    pose proof MACSIZE_pos as HM.
    assert (HL : length (C ++ D) = length C + length D) by apply length_app.
    destruct (Nat.eqb_spec (length (C ++ D)) 0); [lia|]. cbn [negb].
    rewrite store_length by lia.
    destruct (Nat.eqb_spec (length (C ++ D)) (length (d_ciphertext st)));
      [lia|].
    cbn [negb]. rewrite resize_store_prefix by lia.
    destruct (Z.gtb_spec (-1)
                (Z.of_nat (gpos (d_ifs st) + (MACSIZE + length c)))); [lia|].
    cbn [Z.eqb Pos.eqb].
    destruct (Nat.ltb_spec (hashsize_ fc) (length (C ++ D))); [|lia].
    replace (length (C ++ D) - hashsize_ fc) with (length C) by lia.
    rewrite resize_prefix. subst C. rewrite aead_decrypt_encrypt.
    unfold write. rewrite Hsink. cbn [obad].
    eexists. split; [reflexivity|]. repeat split.
Qed.


(** [decrypt]'s loops on what [encrypt] made of the plaintext [R], followed
    by a digest [D].  Every block is opened under the nonce it was sealed
    with and its plaintext is written; when [R] ends on a block boundary the
    Engine is then called once more, on an empty buffer, and throws. *)
Lemma decrypt_loops_artifact fc D :
  1 <= blocksize_ fc -> 1 <= hashsize_ fc -> length D = hashsize_ fc ->
  (Z.of_nat (MACSIZE + blocksize_ fc) < two64)%Z ->
  forall f R fuel st,
  length R <= f -> length R < fuel ->
  good (d_ifs st) = true ->
  skipn (gpos (d_ifs st)) (content (d_ifs st)) =
    concat (seal_chunks (key_ fc) (d_nonce st)
              (chunks_fuel f (blocksize_ fc) R)) ++ D ->
  d_in_mac st = false ->
  length (d_ciphertext st) = MACSIZE + blocksize_ fc ->
  obad (d_ostr st) = false ->
  let blocks :=
    seal_chunks (key_ fc) (d_nonce st) (chunks_fuel f (blocksize_ fc) R) in
  let hash_pos := Z.of_nat (gpos (d_ifs st) + length (concat blocks)) in
  let stuck := length R mod blocksize_ fc =? 0 in
  exists st',
    decrypt_loops fuel fc hash_pos st =
      (st', if stuck then Thrown Engine_failure else Returned) /\
    d_ostr st' = mk_ostream (obuf (d_ostr st) ++ R) false /\
    d_calls st' =
      d_calls st ++ calls_from (d_nonce st) blocks ++
      (if stuck
       then [mk_call (nonce_after (length R / blocksize_ fc) (d_nonce st)) []]
       else []) /\
    (stuck = false ->
     d_state st' =
       mk_hash_state (hs_key (d_state st)) (hs_outlen (d_state st))
         (hs_msg (d_state st) ++ concat blocks)).
Proof.
  intros Hbs Hhs HD Hfit. pose proof MACSIZE_pos as HM.
  induction f as [|f IH]; intros R fuel st Lf Lfuel G ER M Hbuf Hsink;
    cbv zeta.
  - (* no plaintext left *)
    destruct R; [|simpl in Lf; lia]. destruct fuel as [|fuel]; [simpl in *; lia|].
    cbn [chunks_fuel seal_chunks concat calls_from length app] in *.
    rewrite Nat.add_0_r, Nat.Div0.mod_0_l, Nat.Div0.div_0_l, app_nil_r.
    cbn [Nat.eqb nonce_after Nat.iter nat_rect].
    destruct (@decrypt_loops_digest_only fc fuel st D)
      as (st' & E & Ho & Hc); trivial; try lia.
    exists st'. rewrite E, Ho, Hc. repeat split; trivial.
    + destruct (d_ostr st); simpl in *; now subst.
    + discriminate.
  - destruct R as [|x R'] eqn:ERR.
    + (* no plaintext left *)
      destruct fuel as [|fuel]; [simpl in *; lia|].
      cbn [chunks_fuel seal_chunks concat calls_from length app] in *.
      rewrite Nat.add_0_r, Nat.Div0.mod_0_l, Nat.Div0.div_0_l, app_nil_r.
      cbn [Nat.eqb nonce_after Nat.iter nat_rect].
      destruct (@decrypt_loops_digest_only fc fuel st D)
        as (st' & E & Ho & Hc); trivial; try lia.
      exists st'. rewrite E, Ho, Hc. repeat split; trivial.
      * destruct (d_ostr st); simpl in *; now subst.
      * discriminate.
    + rewrite <- ERR in *.
      assert (HR1 : 1 <= length R) by (rewrite ERR; simpl; lia).
      assert (Hcs : chunks_fuel (S f) (blocksize_ fc) R =
                    firstn (blocksize_ fc) R ::
                    chunks_fuel f (blocksize_ fc) (skipn (blocksize_ fc) R))
        by (rewrite ERR; reflexivity).
      rewrite Hcs in *. clear Hcs.
      cbn [seal_chunks concat calls_from] in *.
      set (n := d_nonce st) in *.
      destruct (le_lt_dec (blocksize_ fc) (length R)) as [Hfull|Hshort].
      * (* a full block *)
        set (c := firstn (blocksize_ fc) R) in *.
        set (R2 := skipn (blocksize_ fc) R) in *.
        set (C := aead_encrypt header_ c (key_ fc) n) in *.
        set (rest := concat (seal_chunks (key_ fc) (increment n)
                               (chunks_fuel f (blocksize_ fc) R2))) in *.
        assert (Hc : length c = blocksize_ fc)
          by (unfold c; rewrite length_firstn; lia).
        assert (HC' : length C = MACSIZE + blocksize_ fc)
          by (unfold C; rewrite aead_encrypt_length; lia).
        assert (HR2 : length R2 = length R - blocksize_ fc)
          by (unfold R2; apply length_skipn).
        destruct fuel as [|fuel]; [lia|].
        rewrite decrypt_loops_step.
        rewrite read_enough
          by (rewrite ?ER, ?length_app; trivial; lia).
        rewrite ER, <- app_assoc, (firstn_exact _ _ HC').
        cbv zeta. cbn [failbit tellg gpos]. rewrite M. cbn [orb].
        rewrite store_full by lia.
        rewrite length_app.
        destruct (Z.gtb_spec
                    (Z.of_nat (gpos (d_ifs st) + (MACSIZE + blocksize_ fc)))
                    (Z.of_nat (gpos (d_ifs st) + (length C + length rest))));
          [lia|].
        unfold C at 1. fold n. rewrite aead_decrypt_encrypt. fold C.
        unfold write. rewrite Hsink. cbn [obad].
        edestruct (IH R2 fuel (mk_dec
            (mk_istream (content (d_ifs st))
               (gpos (d_ifs st) + (MACSIZE + blocksize_ fc)) false false
               (MACSIZE + blocksize_ fc))
            (mk_ostream (obuf (d_ostr st) ++ c) false)
            (crypto_generichash_update (d_state st) C) C (increment n) false
            (d_calls st ++ [mk_call n C])))
          as (st' & E & Ho & Hcl & Hst);
          cbn [d_ifs d_ostr d_state d_ciphertext d_nonce d_in_mac d_calls
               content gpos good failbit eofbit negb andb obuf obad] in *;
          trivial; try lia.
        { rewrite skipn_add, ER, <- app_assoc. apply (skipn_exact _ _ HC'). }
        fold rest in E, Hcl, Hst.
        replace (gpos (d_ifs st) + (MACSIZE + blocksize_ fc) + length rest)
          with (gpos (d_ifs st) + (length C + length rest)) in E by lia.
        rewrite HR2, <- (mod_step Hbs Hfull) in E, Hcl, Hst.
        exists st'. rewrite E, Ho, Hcl. split; [reflexivity|].
        rewrite <- !app_assoc. cbn [app].
        rewrite (div_step Hbs Hfull), nonce_after_S.
        unfold c, R2. rewrite firstn_skipn. repeat split; trivial.
        intros Hs. rewrite (Hst Hs).
        cbn [crypto_generichash_update hs_key hs_outlen hs_msg].
        now rewrite <- app_assoc.
      * (* a short final block *)
        assert (E1 : firstn (blocksize_ fc) R = R) by (apply firstn_all2; lia).
        assert (E2 : chunks_fuel f (blocksize_ fc) (skipn (blocksize_ fc) R)
                     = []) by (rewrite skipn_all2 by lia; apply chunks_fuel_nil).
        rewrite E1, E2 in ER |- *. clear E1 E2.
        cbn [seal_chunks concat calls_from] in *. rewrite app_nil_r in *.
        rewrite Nat.mod_small by lia.
        destruct (Nat.eqb_spec (length R) 0); [lia|].
        destruct fuel as [|[|fuel]]; [lia | lia |].
        rewrite aead_encrypt_length.
        destruct (@decrypt_loops_partial fc fuel st R D)
          as (st' & E & Ho & Hcl & Hst); trivial; try lia.
        exists st'. fold n in E, Hcl, Hst. rewrite E, Ho, Hcl.
        repeat split; trivial.
Qed.


Lemma seal_chunks_total k n cs :
  length (concat (seal_chunks k n cs)) =
  length (concat cs) + MACSIZE * length cs.
Proof.
  revert n. induction cs as [|c cs IH]; intros n; cbn [seal_chunks concat length];
    [lia|].
  rewrite !length_app, aead_encrypt_length, IH. lia.
Qed.

Lemma valid_sizes fc :
  valid_configuration fc ->
  1 <= blocksize_ fc /\ 1 <= hashsize_ fc /\
  (Z.of_nat (hashsize_ fc) < 2 ^ 63)%Z /\
  (Z.of_nat (MACSIZE + blocksize_ fc) < two64)%Z.
Proof.
  intros (_ & Hbs & _ & Hhs & Hfit).
  pose proof HASHSIZE_MIN_pos. pose proof HASHSIZE_MAX_small.
  repeat split; trivial; lia.
Qed.

Lemma hash_buffer fc m :
  valid_configuration fc ->
  store (zeros (hashsize_ fc)) (generichash (hashkey_ fc) (hashsize_ fc) m) =
  generichash (hashkey_ fc) (hashsize_ fc) m.
Proof.
  intros (_ & _ & _ & Hhs & _). apply store_full.
  now rewrite zeros_length, generichash_length.
Qed.

(** [decrypt] on the ciphertext blocks of [P] followed by any [hashsize_]
    bytes [D] in place of the digest. *)
Lemma decrypt_run fc P D ifs ostr :
  valid_configuration fc ->
  length D = hashsize_ fc ->
  content ifs = concat (ciphertext_blocks fc P) ++ D ->
  failbit ifs = false -> obad ostr = false ->
  let blocks := ciphertext_blocks fc P in
  let stuck := length P mod blocksize_ fc =? 0 in
  exists st',
    decrypt fc ifs ostr =
      (st',
       if stuck then Thrown Engine_failure
       else if data_eqb
                 (generichash (hashkey_ fc) (hashsize_ fc) (concat blocks)) D
            then Returned else Thrown Decrypt_hash_mismatch) /\
    d_ostr st' = mk_ostream (obuf ostr ++ P) false /\
    d_calls st' =
      calls_from (nonce_ fc) blocks ++
      (if stuck
       then [mk_call (nonce_after (length P / blocksize_ fc) (nonce_ fc)) []]
       else []).
Proof.
  intros V HD EA F Hsink. cbv zeta.
  destruct (valid_sizes V) as (Hbs & Hhs & Hhs63 & Hfit).
  assert (Hlen : length (content ifs) =
                 length (concat (ciphertext_blocks fc P)) + hashsize_ fc)
    by (rewrite EA, length_app; lia).
  unfold decrypt, decrypt_blocks.
  rewrite fetch_saved_hash_ok by (trivial; lia).
  cbn [seekg_beg seekg_abs failbit Z.ltb Z.compare content gcount Z.to_nat].
  replace (length (content ifs) - hashsize_ fc)
    with (length (concat (ciphertext_blocks fc P))) by lia.
  assert (Hsk : skipn (length (concat (ciphertext_blocks fc P))) (content ifs)
                = D) by (rewrite EA; now apply skipn_exact).
  rewrite Hsk.
  destruct (@decrypt_loops_artifact fc D Hbs Hhs HD Hfit (length P) P
              (S (length (content ifs)))
              (decrypt_start fc
                 (mk_istream (content ifs) 0 false false (hashsize_ fc)) ostr))
    as (st' & E & Ho & Hc & Hst);
    cbn [decrypt_start d_ifs d_ostr d_state d_ciphertext d_nonce d_in_mac
         d_calls content gpos good failbit eofbit negb andb skipn app
         Nat.add] in *;
    trivial.
  - unfold ciphertext_blocks, plaintext_chunks in Hlen.
    rewrite Hlen, seal_chunks_total, chunks_fuel_concat by lia. lia.
  - apply zeros_length.
  - fold (plaintext_chunks (blocksize_ fc) P) in E, Hc, Hst.
    fold (ciphertext_blocks fc P) in E, Hc, Hst.
    rewrite E. exists st'. rewrite Ho, Hc. split; [|split; reflexivity].
    destruct (length P mod blocksize_ fc =? 0); [reflexivity|].
    rewrite (Hst eq_refl), zeros_length.
    unfold crypto_generichash_final. cbn [hs_key hs_msg].
    rewrite (hash_buffer _ V).
    now destruct (data_eqb _ D).
Qed.


(** ** decrypt on arbitrary input: what every run maintains *)

Lemma read_ok_inv s n s' d :
  read s n = (s', d) -> failbit s' = false ->
  length (skipn (gpos s') (content s')) + n =
  length (skipn (gpos s) (content s)).
Proof.
  unfold read. destruct (good s).
  - destruct (Nat.leb_spec n (length (content s) - gpos s));
      intros E F; injection E as <- <-; cbn [failbit] in F;
      [|discriminate].
    cbn [content gpos]. rewrite !length_skipn. lia.
  - intros E F. injection E as <- <-. discriminate.
Qed.

Lemma recovered_app fc a b :
  recovered fc (a ++ b) = recovered fc a ++ recovered fc b.
Proof. unfold recovered. now rewrite map_app, concat_app. Qed.

Lemma recovered_one fc c p :
  opened fc c = Some p -> recovered fc [c] = p.
Proof. unfold recovered. simpl. intros ->. apply app_nil_r. Qed.

Lemma decrypt_stretch_nil fc st : decrypt_stretch fc st st Returned [].
Proof.
  unfold decrypt_stretch, recovered. simpl. rewrite !app_nil_r.
  repeat split; trivial; discriminate.
Qed.

Lemma decrypt_final_chunk_stretch fc hash_pos st st' oc :
  decrypt_final_chunk fc hash_pos st = (st', oc) ->
  exists new, decrypt_stretch fc st st' oc new /\
    d_nonce st' = d_nonce st /\
    (Forall (verified fc) new -> obad (d_ostr st) = false -> oc = Returned).
Proof.
  unfold decrypt_final_chunk.
  destruct (negb (d_in_mac st));
    [|intros E; injection E as <- <-; exists [];
      auto using decrypt_stretch_nil].
  destruct (negb (gcount (d_ifs st) =? 0));
    [|intros E; injection E as <- <-; exists [];
      auto using decrypt_stretch_nil].
  set (ct := final_ciphertext fc hash_pos st).
  destruct (aead_decrypt header_ ct (key_ fc) (d_nonce st)) as [p|] eqn:EO.
  - unfold write. destruct (obad (d_ostr st)) eqn:Hb.
    + rewrite Hb. intros E. injection E as <- <-.
      exists [mk_call (d_nonce st) ct]. unfold decrypt_stretch.
      cbn [d_calls d_nonce d_ostr]. repeat split; try discriminate.
    + cbn [obad]. intros E. injection E as <- <-.
      exists [mk_call (d_nonce st) ct]. unfold decrypt_stretch.
      cbn [d_calls d_nonce d_ostr d_state obuf crypto_generichash_update
           hs_msg hs_key map concat call_input length nonce_seq call_nonce].
      rewrite (@recovered_one fc _ p) by exact EO. rewrite app_nil_r.
      repeat split; trivial; try discriminate.
      constructor; [|constructor]. unfold verified, opened. cbn. now rewrite EO.
  - intros E. injection E as <- <-.
    exists [mk_call (d_nonce st) ct]. unfold decrypt_stretch.
    cbn [d_calls d_nonce]. repeat split; try discriminate.
    intros Hv _. inversion Hv as [|? ? Hv1 _]; subst.
    unfold verified, opened in Hv1. cbn in Hv1. now rewrite EO in Hv1.
Qed.

Lemma decrypt_loops_stretch fc hash_pos : forall fuel st st' oc,
  decrypt_loops fuel fc hash_pos st = (st', oc) ->
  exists new, decrypt_stretch fc st st' oc new /\
    (Forall (verified fc) new -> obad (d_ostr st) = false ->
     length (skipn (gpos (d_ifs st)) (content (d_ifs st))) < fuel ->
     oc = Returned).
Proof.
  pose proof MACSIZE_pos as HM.
  induction fuel as [|f IH]; intros st st' oc.
  - unfold decrypt_loops. simpl. intros E. injection E as <- <-.
    exists []. unfold decrypt_stretch, recovered. simpl. rewrite !app_nil_r.
    repeat split; trivial; try discriminate. lia.
  - rewrite decrypt_loops_step.
    destruct (read (d_ifs st) (MACSIZE + blocksize_ fc)) as [ifs d] eqn:ERd.
    cbv zeta. destruct (failbit ifs) eqn:F; cbn [orb].
    + intros E. apply decrypt_final_chunk_stretch in E.
      destruct E as (new & Hs & _ & Hr). exists new. split; [exact Hs|].
      intros Hv Hg _. now apply Hr.
    + destruct (d_in_mac st) eqn:M.
      * intros E. apply decrypt_final_chunk_stretch in E.
        destruct E as (new & Hs & _ & Hr). exists new. split; [exact Hs|].
        intros Hv Hg _. now apply Hr.
      * set (ct := if (tellg ifs >? hash_pos)%Z then _ else _).
        set (im := if (tellg ifs >? hash_pos)%Z then true else false).
        destruct (aead_decrypt header_ ct (key_ fc) (d_nonce st)) as [p|] eqn:EO.
        -- unfold write. destruct (obad (d_ostr st)) eqn:Hb.
           ++ rewrite Hb. intros E. injection E as <- <-.
              exists [mk_call (d_nonce st) ct]. unfold decrypt_stretch.
              cbn [d_calls d_nonce]. repeat split; try discriminate.
           ++ cbn [obad]. intros E. apply IH in E.
              destruct E as (new & (Hc & Hn & Hret & Hne) & Hr).
              cbn [d_calls d_nonce d_ostr d_state obuf obad d_ifs
                   crypto_generichash_update hs_msg hs_key] in *.
              exists (mk_call (d_nonce st) ct :: new).
              assert (Hv1 : verified fc (mk_call (d_nonce st) ct))
                by (unfold verified, opened; cbn; now rewrite EO).
              split; [unfold decrypt_stretch; repeat split|].
              ** rewrite Hc, <- app_assoc. reflexivity.
              ** cbn [map call_nonce length nonce_seq]. now rewrite Hn.
              ** constructor; [exact Hv1 | now apply Hret].
              ** destruct (Hret H) as (_ & Ho & _). rewrite Ho.
                 change (mk_call (d_nonce st) ct :: new)
                   with ([mk_call (d_nonce st) ct] ++ new).
                 rewrite recovered_app, (@recovered_one fc _ p) by exact EO.
                 now rewrite app_assoc.
              ** destruct (Hret H) as (_ & _ & Hm & _). rewrite Hm.
                 cbn [map concat call_input]. now rewrite app_assoc.
              ** now destruct (Hret H) as (_ & _ & _ & Hk).
              ** apply Hne.
              ** apply Hne.
              ** apply Hne.
              ** intros Hv _ L. inversion Hv; subst. apply Hr; trivial.
                 pose proof (read_ok_inv _ _ ERd F). lia.
        -- intros E. injection E as <- <-.
           exists [mk_call (d_nonce st) ct]. unfold decrypt_stretch.
           cbn [d_calls d_nonce]. repeat split; try discriminate.
           intros Hv _ _. inversion Hv as [|? ? Hv1 _]; subst.
           unfold verified, opened in Hv1. cbn in Hv1. now rewrite EO in Hv1.
Qed.


Lemma decrypt_blocks_stretch fc ifs ostr st hash_saved oc :
  decrypt_blocks fc ifs ostr = (st, hash_saved, oc) ->
  map call_nonce (d_calls st) = nonce_seq (nonce_ fc) (length (d_calls st)) /\
  oc <> Thrown Decrypt_hash_mismatch /\
  (oc = Returned ->
   Forall (verified fc) (d_calls st) /\
   obuf (d_ostr st) = obuf ostr ++ recovered fc (d_calls st) /\
   hs_msg (d_state st) = concat (map call_input (d_calls st)) /\
   hs_key (d_state st) = hashkey_ fc).
Proof.
  unfold decrypt_blocks.
  destruct (fetch_saved_hash fc ifs) as [[[ifs1 hp] hsv] r] eqn:EF.
  assert (Hr : r = Returned \/
               r = Thrown Decrypt_cant_seek_to_end_for_hash \/
               r = Thrown Decrypt_read_partial_hash).
  { revert EF. unfold fetch_saved_hash.
    destruct (failbit (seekg_end _ _)); [intros E; injection E; auto|].
    destruct (read _ _) as [i d].
    destruct (_ && _); intros E; injection E; auto. }
  destruct Hr as [-> | [-> | ->]].
  - destruct (decrypt_loops _ _ _ _) as [st1 r1] eqn:EL.
    intros E. injection E as <- _ <-.
    apply decrypt_loops_stretch in EL.
    destruct EL as (new & (Hc & Hn & Hret & Hne) & _).
    cbn [decrypt_start d_calls d_nonce d_ostr d_state app
         crypto_generichash_init hs_msg hs_key] in *.
    subst new. repeat split; trivial; try apply Hne; now apply Hret.
  - intros E. injection E as <- _ <-.
    cbn [decrypt_start d_calls]. repeat split; try discriminate.
  - intros E. injection E as <- _ <-.
    cbn [decrypt_start d_calls]. repeat split; try discriminate.
Qed.

(** ** encrypt on arbitrary input: the nonces of the calls *)








Lemma decrypt_blocks_completes fc ifs ostr st hash_saved oc :
  (Z.of_nat (hashsize_ fc) < 2 ^ 63)%Z ->
  failbit ifs = false -> hashsize_ fc <= length (content ifs) ->
  obad ostr = false ->
  decrypt_blocks fc ifs ostr = (st, hash_saved, oc) ->
  hash_saved = skipn (length (content ifs) - hashsize_ fc) (content ifs) /\
  (Forall (verified fc) (d_calls st) -> oc = Returned).
Proof.
  intros Hhs F L Hsink. unfold decrypt_blocks.
  rewrite fetch_saved_hash_ok by assumption.
  cbn [seekg_beg seekg_abs failbit Z.ltb Z.compare content gcount Z.to_nat].
  destruct (decrypt_loops _ _ _ _) as [st1 r1] eqn:EL.
  intros E. injection E as <- <- <-. split; [reflexivity|].
  apply decrypt_loops_stretch in EL.
  destruct EL as (new & (Hc & _) & Hr).
  cbn [decrypt_start d_calls d_ostr d_ifs content gpos app skipn] in *.
  subst new. intros Hv. apply Hr; trivial. lia.
Qed.


(** * The claims *)

(** C4.  Construction succeeds exactly when the key has [KEYSIZE_AEAD] bytes,
    the block size is at least one and the size of the hash key lies in
    [[HASHKEYSIZE_MIN, HASHKEYSIZE_MAX]]; the value of [hashsize] plays no
    part, so a digest size outside [[HASHSIZE_MIN, HASHSIZE_MAX]] is not
    rejected by the constructor. *)
Theorem FileCryptor_new_accepts_iff key nonce blocksize hashkey hashsize :
  FileCryptor_new key nonce blocksize hashkey hashsize =
    inr (mk_FileCryptor key nonce blocksize hashkey hashsize)
  <->
  (length key = KEYSIZE_AEAD /\ 1 <= blocksize /\
   HASHKEYSIZE_MIN <= length hashkey <= HASHKEYSIZE_MAX).
Proof.
  split.
  - intros E. apply FileCryptor_new_inr in E. tauto.
  - intros (Hk & Hb & Hmin & Hmax). unfold FileCryptor_new.
    destruct (Nat.eqb_spec (length key) KEYSIZE_AEAD); [|contradiction].
    cbn [negb].
    destruct (Nat.ltb_spec blocksize 1); [lia|].
    destruct (Nat.ltb_spec (length hashkey) HASHKEYSIZE_MIN); [lia|].
    destruct (Nat.ltb_spec HASHKEYSIZE_MAX (length hashkey)); [lia|].
    reflexivity.
Qed.

(** C8.  On an input shorter than [hashsize_] bytes (the empty input
    included) [decrypt] throws before any block is processed: the seek to
    the stored digest fails, the Engine is never called and nothing is
    written. *)
Theorem decrypt_too_short fc ifs ostr :
  (Z.of_nat (hashsize_ fc) < 2 ^ 63)%Z ->
  length (content ifs) < hashsize_ fc ->
  snd (decrypt fc ifs ostr) = Thrown Decrypt_cant_seek_to_end_for_hash /\
  d_calls (fst (decrypt fc ifs ostr)) = [] /\
  d_ostr (fst (decrypt fc ifs ostr)) = ostr.
Proof.
  intros Hhs L. pose proof (fetch_saved_hash_short fc ifs Hhs L) as E.
  unfold decrypt, decrypt_blocks.
  destruct (fetch_saved_hash fc ifs) as [[[ifs1 hp] hsv] r].
  cbn [snd] in E. subst r. cbn. repeat split.
Qed.

(** C6.  The bytes [encrypt] writes are the ciphertext blocks, one per chunk
    of [blocksize_] bytes of the source (the last chunk possibly shorter,
    none empty), each [MACSIZE] bytes longer than its chunk, followed by
    [hashsize_] bytes that are the keyed hash of the blocks written before;
    the total length is the sum of the block sizes plus [hashsize_]. *)
Theorem encrypt_artifact_layout fc P ostr :
  valid_configuration fc -> obad ostr = false ->
  let e := encrypt fc (open_file P) ostr in
  let cs := plaintext_chunks (blocksize_ fc) P in
  let blocks := ciphertext_blocks fc P in
  let digest := generichash (hashkey_ fc) (hashsize_ fc) (concat blocks) in
  snd e = Returned /\
  obuf (e_ostr (fst e)) = obuf ostr ++ concat blocks ++ digest /\
  length digest = hashsize_ fc /\
  concat cs = P /\
  (forall i c, nth_error cs i = Some c ->
     1 <= length c <= blocksize_ fc /\
     (S i < length cs -> length c = blocksize_ fc)) /\
  map (@length byte) blocks = map (fun c => MACSIZE + length c) cs /\
  length (concat blocks ++ digest) =
    list_sum (map (@length byte) blocks) + hashsize_ fc.
Proof.
  intros V Hsink. cbv zeta.
  destruct (valid_sizes V) as (Hbs & Hhs & _ & _).
  destruct (@encrypt_run fc (open_file P) ostr Hbs eq_refl Hsink)
    as (st' & E & Ho & _).
  cbn [open_file gpos content skipn] in *.
  fold (ciphertext_blocks fc P) in Ho.
  rewrite (hash_buffer _ V) in Ho.
  assert (Hd : length (generichash (hashkey_ fc) (hashsize_ fc)
                         (concat (ciphertext_blocks fc P))) = hashsize_ fc)
    by (apply generichash_length; apply V).
  rewrite E. cbn [fst snd]. rewrite Ho. cbn [obuf].
  repeat split; trivial.
  - apply chunks_fuel_concat; trivial.
  - eapply (chunks_fuel_sizes Hbs); [|eassumption]. apply Nat.le_refl.
  - eapply (chunks_fuel_sizes Hbs); [|eassumption]. apply Nat.le_refl.
  - intros Hi. eapply (chunks_fuel_sizes Hbs); [| eassumption | exact Hi].
    apply Nat.le_refl.
  - apply seal_chunks_lengths.
  - now rewrite length_app, length_concat, Hd.
Qed.

(** C9.  [encrypt] is deterministic: two codecs with the same key, initial
    nonce, block size, hash key and digest size, run on sources with the same
    unread bytes, both return and append the same bytes to their sinks. *)
Theorem encrypt_deterministic fc1 fc2 istr1 istr2 ostr1 ostr2 :
  key_ fc1 = key_ fc2 -> nonce_ fc1 = nonce_ fc2 ->
  blocksize_ fc1 = blocksize_ fc2 -> hashkey_ fc1 = hashkey_ fc2 ->
  hashsize_ fc1 = hashsize_ fc2 ->
  1 <= blocksize_ fc1 ->
  good istr1 = true -> good istr2 = true ->
  skipn (gpos istr1) (content istr1) = skipn (gpos istr2) (content istr2) ->
  obad ostr1 = false -> obad ostr2 = false ->
  exists written,
    snd (encrypt fc1 istr1 ostr1) = Returned /\
    snd (encrypt fc2 istr2 ostr2) = Returned /\
    obuf (e_ostr (fst (encrypt fc1 istr1 ostr1))) = obuf ostr1 ++ written /\
    obuf (e_ostr (fst (encrypt fc2 istr2 ostr2))) = obuf ostr2 ++ written.
Proof.
  intros Hk Hn Hb Hh Hs Hbs G1 G2 ER S1 S2.
  assert (Hfc : fc1 = fc2)
    by (destruct fc1, fc2; cbn in *; congruence).
  subst fc2.
  destruct (@encrypt_run fc1 istr1 ostr1 Hbs G1 S1) as (st1 & E1 & O1 & _).
  destruct (@encrypt_run fc1 istr2 ostr2 Hbs G2 S2) as (st2 & E2 & O2 & _).
  rewrite E1, E2. cbn [fst snd]. rewrite O1, O2, ER. cbn [obuf].
  eexists. repeat split.
Qed.


(** C1.  [decrypt] run on what [encrypt] wrote for a plaintext [P] writes
    exactly [P], and returns when the length of [P] is not a multiple of
    [blocksize_].  When it is a multiple (the empty plaintext, exactly one
    block, several full blocks) the Engine is called once more on an empty
    buffer and [decrypt] ends with the exception the Engine throws. *)
Theorem decrypt_after_encrypt fc P :
  valid_configuration fc ->
  let e := encrypt fc (open_file P) (mk_ostream [] false) in
  let d := decrypt fc (open_file (obuf (e_ostr (fst e)))) (mk_ostream [] false) in
  snd e = Returned /\
  obuf (d_ostr (fst d)) = P /\
  snd d = if length P mod blocksize_ fc =? 0
          then Thrown Engine_failure else Returned.
Proof.
  intros V. cbv zeta.
  destruct (valid_sizes V) as (Hbs & Hhs & _ & _).
  destruct (@encrypt_run fc (open_file P) (mk_ostream [] false) Hbs eq_refl
              eq_refl) as (st' & E & Ho & _).
  cbn [open_file gpos content skipn obuf app] in *.
  fold (ciphertext_blocks fc P) in Ho.
  rewrite (hash_buffer _ V) in Ho.
  rewrite E. cbn [fst snd]. rewrite Ho. cbn [obuf].
  edestruct (@decrypt_run fc P
               (generichash (hashkey_ fc) (hashsize_ fc)
                  (concat (ciphertext_blocks fc P)))
               (open_file (concat (ciphertext_blocks fc P) ++
                  generichash (hashkey_ fc) (hashsize_ fc)
                    (concat (ciphertext_blocks fc P))))
               (mk_ostream [] false) V)
    as (st2 & E2 & Ho2 & _); try reflexivity.
  - apply generichash_length. apply V.
  - rewrite E2. cbn [fst snd]. rewrite Ho2, data_eqb_refl. cbn [obuf app].
    repeat split.
Qed.

(** C2.  For an empty source [encrypt] writes the digest alone, [hashsize_]
    bytes.  [decrypt] run on these bytes writes nothing, but it does not
    return: it hands an empty buffer to the Engine and ends with the
    exception the Engine throws. *)
Theorem empty_source_digest_only fc :
  valid_configuration fc ->
  let e := encrypt fc (open_file []) (mk_ostream [] false) in
  let d := decrypt fc (open_file (obuf (e_ostr (fst e)))) (mk_ostream [] false) in
  snd e = Returned /\
  obuf (e_ostr (fst e)) = generichash (hashkey_ fc) (hashsize_ fc) [] /\
  length (obuf (e_ostr (fst e))) = hashsize_ fc /\
  obuf (d_ostr (fst d)) = [] /\
  d_calls (fst d) = [mk_call (nonce_ fc) []] /\
  snd d = Thrown Engine_failure.
Proof.
  intros V. cbv zeta.
  destruct (valid_sizes V) as (Hbs & Hhs & _ & _).
  destruct (@encrypt_run fc (open_file []) (mk_ostream [] false) Hbs eq_refl
              eq_refl) as (st' & E & Ho & _).
  cbn [open_file gpos content skipn obuf app plaintext_chunks length
       chunks_fuel seal_chunks concat] in *.
  rewrite (hash_buffer _ V) in Ho.
  assert (Hd : length (generichash (hashkey_ fc) (hashsize_ fc) []) =
               hashsize_ fc) by (apply generichash_length; apply V).
  rewrite E. cbn [fst snd]. rewrite Ho. cbn [obuf].
  edestruct (@decrypt_run fc [] (generichash (hashkey_ fc) (hashsize_ fc) [])
               (open_file (generichash (hashkey_ fc) (hashsize_ fc) []))
               (mk_ostream [] false) V)
    as (st2 & E2 & Ho2 & Hc2); try reflexivity; trivial.
  cbn [length] in E2, Hc2.
  rewrite Nat.Div0.mod_0_l, Nat.Div0.div_0_l in *.
  cbn [Nat.eqb ciphertext_blocks plaintext_chunks length chunks_fuel
       seal_chunks calls_from app nonce_after Nat.iter nat_rect] in *.
  rewrite E2. cbn [fst snd]. rewrite Ho2, Hc2. repeat split; trivial.
Qed.




End CodecProperties.

(** * The claims on concrete inputs *)

Lemma example_codec_valid : valid_configuration example_codec.
Proof. unfold valid_configuration, two64. cbn. repeat split; lia. Qed.

(** One block of two bytes, then a short block of one byte. *)
Example encrypt_three_bytes :
  map (@length byte) (ciphertext_blocks example_codec [x41; x42; x43]) = [18; 17]
  /\ length (obuf (e_ostr (fst (encrypt example_codec
                                  (open_file [x41; x42; x43]) example_sink))))
     = 51.
Proof. split; vm_compute; reflexivity. Qed.

(** A plaintext that does not end on a block boundary comes back. *)
Example round_trip_three_bytes :
  let e := encrypt example_codec (open_file [x41; x42; x43]) example_sink in
  let d := decrypt example_codec (open_file (obuf (e_ostr (fst e)))) example_sink in
  snd d = Returned /\ obuf (d_ostr (fst d)) = [x41; x42; x43].
Proof. split; vm_compute; reflexivity. Qed.

(** Exactly one block: the plaintext is written, then the Engine is called
    on an empty buffer under the next nonce and [decrypt] throws. *)
Example round_trip_one_block :
  let e := encrypt example_codec (open_file [x41; x42]) example_sink in
  let d := decrypt example_codec (open_file (obuf (e_ostr (fst e)))) example_sink in
  snd d = Thrown Engine_failure /\
  obuf (d_ostr (fst d)) = [x41; x42] /\
  map (fun c => (call_nonce c, length (call_input c))) (d_calls (fst d)) =
    [(0, 18); (1, 0)].
Proof. repeat split; vm_compute; reflexivity. Qed.

(** The same with a digest of 64 bytes, longer than a ciphertext block: the
    chunk is cut down to nothing inside the loop. *)
Example round_trip_one_block_long_digest :
  let fc := mk_FileCryptor (Sod := toy_sodium) example_key 0 2 example_hashkey 64 in
  let e := encrypt fc (open_file [x41; x42]) example_sink in
  let d := decrypt fc (open_file (obuf (e_ostr (fst e)))) example_sink in
  snd d = Thrown Engine_failure /\
  map (fun c => (call_nonce c, length (call_input c))) (d_calls (fst d)) =
    [(0, 18); (1, 0)].
Proof. repeat split; vm_compute; reflexivity. Qed.

(** The constructor accepts digest sizes outside [16, 64]. *)
Example FileCryptor_new_hashsize_unchecked :
  FileCryptor_new (Sod := toy_sodium) example_key 0 16 example_hashkey 0 =
    inr (mk_FileCryptor (Sod := toy_sodium) example_key 0 16 example_hashkey 0)
  /\
  FileCryptor_new (Sod := toy_sodium) example_key 0 16 example_hashkey 65 =
    inr (mk_FileCryptor (Sod := toy_sodium) example_key 0 16 example_hashkey 65).
Proof. split; reflexivity. Qed.

(** In [decrypt] a short final block that the loop itself handles is
    followed by an increment like any other; no call is made under the
    resulting value. *)
Example decrypt_three_bytes_nonces :
  let e := encrypt example_codec (open_file [x41; x42; x43]) example_sink in
  let d := decrypt example_codec (open_file (obuf (e_ostr (fst e)))) example_sink in
  map (call_nonce (Sod := toy_sodium)) (d_calls (fst d)) = [0; 1] /\
  d_nonce (fst d) = 2 /\ e_nonce (fst e) = 1.
Proof. repeat split; vm_compute; reflexivity. Qed.

Lemma decrypt_after_encrypt_witness :
  valid_configuration example_codec /\
  let e := encrypt example_codec (open_file [x41; x42]) (mk_ostream [] false) in
  let d := decrypt example_codec (open_file (obuf (e_ostr (fst e))))
             (mk_ostream [] false) in
  snd e = Returned /\
  obuf (d_ostr (fst d)) = [x41; x42] /\
  snd d = Thrown Engine_failure.
Proof.
  split; [exact example_codec_valid|].
  exact (decrypt_after_encrypt [x41; x42] example_codec_valid).
Defined.

Lemma empty_source_digest_only_witness :
  valid_configuration example_codec /\
  let e := encrypt example_codec (open_file []) (mk_ostream [] false) in
  let d := decrypt example_codec (open_file (obuf (e_ostr (fst e))))
             (mk_ostream [] false) in
  length (obuf (e_ostr (fst e))) = 16 /\
  obuf (d_ostr (fst d)) = [] /\
  d_calls (fst d) = [mk_call (Sod := toy_sodium) 0 []] /\
  snd d = Thrown Engine_failure.
Proof.
  split; [exact example_codec_valid|].
  destruct (empty_source_digest_only example_codec_valid)
    as (_ & _ & H1 & H2 & H3 & H4).
  repeat split; assumption.
Defined.


Lemma decrypt_too_short_witness :
  (Z.of_nat (hashsize_ example_codec) < 2 ^ 63)%Z /\
  length (content (open_file (zeros 15))) < hashsize_ example_codec /\
  snd (decrypt example_codec (open_file (zeros 15)) example_sink) =
    Thrown Decrypt_cant_seek_to_end_for_hash /\
  d_calls (fst (decrypt example_codec (open_file (zeros 15)) example_sink)) = []
  /\
  d_ostr (fst (decrypt example_codec (open_file (zeros 15)) example_sink)) =
    example_sink.
Proof.
  assert (H1 : (Z.of_nat (hashsize_ example_codec) < 2 ^ 63)%Z) by reflexivity.
  assert (H2 : length (content (open_file (zeros 15)))
               < hashsize_ example_codec) by (cbn; lia).
  split; [exact H1|]. split; [exact H2|].
  exact (decrypt_too_short example_codec (open_file (zeros 15)) example_sink
           H1 H2).
Defined.

Lemma encrypt_artifact_layout_witness :
  valid_configuration example_codec /\
  obad example_sink = false /\
  snd (encrypt example_codec (open_file [x41; x42; x43]) example_sink)
    = Returned /\
  obuf (e_ostr (fst (encrypt example_codec (open_file [x41; x42; x43])
                       example_sink))) =
    obuf example_sink ++
    concat (ciphertext_blocks example_codec [x41; x42; x43]) ++
    generichash (hashkey_ example_codec) (hashsize_ example_codec)
      (concat (ciphertext_blocks example_codec [x41; x42; x43])).
Proof.
  split; [exact example_codec_valid|]. split; [reflexivity|].
  destruct (encrypt_artifact_layout [x41; x42; x43] example_sink
              example_codec_valid eq_refl) as (H1 & H2 & _).
  split; assumption.
Defined.

Lemma encrypt_deterministic_witness :
  exists written,
    snd (encrypt example_codec (open_file [x41; x42; x43]) example_sink)
      = Returned /\
    snd (encrypt example_codec
           (mk_istream [x00; x41; x42; x43] 1 false false 1)
           (mk_ostream [x07] false)) = Returned /\
    obuf (e_ostr (fst (encrypt example_codec (open_file [x41; x42; x43])
                         example_sink))) = obuf example_sink ++ written /\
    obuf (e_ostr (fst (encrypt example_codec
                         (mk_istream [x00; x41; x42; x43] 1 false false 1)
                         (mk_ostream [x07] false)))) =
      obuf (mk_ostream [x07] false) ++ written.
Proof.
  apply (encrypt_deterministic example_codec example_codec
           (open_file [x41; x42; x43])
           (mk_istream [x00; x41; x42; x43] 1 false false 1)
           example_sink (mk_ostream [x07] false));
    try reflexivity.
  cbn. lia.
Defined.

(** With every tag valid and a wrong digest [decrypt] writes the plaintext
    and throws "hash mismatch". *)
Example decrypt_tampered_digest :
  snd (decrypt example_codec (open_file example_tampered) example_sink) =
    Thrown Decrypt_hash_mismatch /\
  obuf (d_ostr (fst (decrypt example_codec (open_file example_tampered)
                       example_sink))) = [x41].
Proof. split; vm_compute; reflexivity. Qed.


(** * Further properties of the codec *)

Section MoreProperties.

Context `{Sod : Sodium} {HC : SodiumContract Sod}.

(** ** encrypt: sizes *)

Lemma chunks_fuel_count bs : 1 <= bs -> forall f P,
  length P <= f ->
  length (chunks_fuel f bs P) = (length P + bs - 1) / bs.
Proof.
  intros Hbs. induction f as [|f IH]; intros P L.
  - destruct P; [|simpl in L; lia]. cbn [chunks_fuel length].
    symmetry. apply Nat.div_small. lia.
  - destruct P as [|x P'] eqn:EP.
    + cbn [chunks_fuel length]. symmetry. apply Nat.div_small. lia.
    + rewrite <- EP in *. assert (HP : 1 <= length P) by (subst P; simpl; lia).
      replace (chunks_fuel (S f) bs P)
        with (firstn bs P :: chunks_fuel f bs (skipn bs P))
        by (subst P; reflexivity).
      cbn [length]. rewrite IH by (rewrite length_skipn; lia).
      rewrite length_skipn.
      destruct (le_lt_dec bs (length P)) as [Hfull|Hshort].
      * replace (length P + bs - 1) with ((length P - bs + bs - 1) + 1 * bs)
          by lia.
        rewrite Nat.div_add by lia. lia.
      * replace (length P - bs) with 0 by lia.
        rewrite (Nat.div_small (0 + bs - 1)) by lia.
        apply (Nat.div_unique _ _ _ (length P - 1)); lia.
Qed.

(** X2.  The size of the artifact: [encrypt] makes one Engine call per started
    block of the plaintext and writes, for a plaintext of n bytes, n bytes
    plus [MACSIZE] bytes per started block plus [hashsize_] bytes. *)
Theorem encrypt_artifact_size fc P ostr :
  valid_configuration fc -> obad ostr = false ->
  let e := fst (encrypt fc (open_file P) ostr) in
  let started := (length P + blocksize_ fc - 1) / blocksize_ fc in
  length (e_calls e) = started /\
  length (obuf (e_ostr e)) =
    length (obuf ostr) + length P + MACSIZE * started + hashsize_ fc.
Proof.
  intros V Hsink. cbv zeta.
  destruct (valid_sizes V) as (Hbs & _).
  destruct (@encrypt_run _ fc (open_file P) ostr Hbs eq_refl Hsink)
    as (st' & E & Ho & Hc & _).
  cbn [open_file gpos content skipn] in *.
  rewrite (hash_buffer _ V) in Ho.
  rewrite E. cbn [fst]. rewrite Ho, Hc. cbn [obuf].
  rewrite calls_from_count. unfold plaintext_chunks.
  rewrite !length_app, seal_chunks_total, chunks_fuel_concat,
    (chunks_fuel_count Hbs) by lia.
  rewrite generichash_length by apply V. lia.
Qed.


(** ** encrypt: the source and the sink *)

Lemma encrypt_final_chunk_source fc st :
  e_istr (fst (encrypt_final_chunk fc st)) = e_istr st.
Proof.
  unfold encrypt_final_chunk. destruct (negb _); [|reflexivity].
  destruct (obad (write _ _)); reflexivity.
Qed.

Lemma encrypt_chunks_source fc : 1 <= blocksize_ fc -> forall fuel st,
  good (e_istr st) = true ->
  length (skipn (gpos (e_istr st)) (content (e_istr st))) < fuel ->
  obad (e_ostr st) = false ->
  e_istr (fst (encrypt_chunks fuel fc st)) =
    mk_istream (content (e_istr st))
      (gpos (e_istr st)
       + length (skipn (gpos (e_istr st)) (content (e_istr st))))
      true true
      (length (skipn (gpos (e_istr st)) (content (e_istr st)))
       mod blocksize_ fc).
Proof.
  intros Hbs. induction fuel as [|f IH]; intros st G L Hsink; [lia|].
  rewrite encrypt_chunks_step.
  set (R := skipn (gpos (e_istr st)) (content (e_istr st))) in *.
  destruct (le_lt_dec (blocksize_ fc) (length R)) as [Hfull|Hshort].
  - rewrite read_enough by assumption. fold R. cbv zeta. cbn [failbit].
    unfold write at 1. rewrite Hsink. cbn [obad].
    rewrite IH; cbn [e_istr e_ostr content gpos good failbit eofbit negb andb];
      trivial.
    + rewrite skipn_add. fold R. rewrite length_skipn.
      rewrite (mod_step Hbs Hfull). f_equal. lia.
    + rewrite skipn_add. fold R. rewrite length_skipn. lia.
    + unfold write. now rewrite Hsink.
  - rewrite read_short by assumption. fold R. cbv zeta. cbn [failbit].
    rewrite encrypt_final_chunk_source. cbn [e_istr].
    now rewrite Nat.mod_small by lia.
Qed.

(** X3.  [encrypt] reads its source to the end and leaves it failed: the loop ends
    on a read that comes up short, so on return [eofbit] and [failbit] are
    set, the get position is the end of the input and [gcount] is the size
    of the last, short chunk. *)
Theorem encrypt_exhausts_source fc istr ostr :
  1 <= blocksize_ fc -> good istr = true -> obad ostr = false ->
  let R := skipn (gpos istr) (content istr) in
  e_istr (fst (encrypt fc istr ostr)) =
    mk_istream (content istr) (gpos istr + length R) true true
      (length R mod blocksize_ fc).
Proof.
  intros Hbs G Hsink. cbv zeta.
  pose proof (@encrypt_chunks_source fc Hbs (S (length (content istr)))
                (encrypt_start fc istr ostr)) as H.
  cbn [encrypt_start e_istr e_ostr] in H.
  unfold encrypt.
  destruct (encrypt_chunks _ _ _) as [st oc]. cbn [fst] in H.
  assert (E : e_istr st =
              mk_istream (content istr)
                (gpos istr + length (skipn (gpos istr) (content istr)))
                true true
                (length (skipn (gpos istr) (content istr)) mod blocksize_ fc))
    by (apply H; trivial; rewrite length_skipn; lia).
  destruct oc; [destruct (obad (write _ _))|..]; exact E.
Qed.

(** X4.  A sink that is already failed: [encrypt] throws at its first write and
    writes nothing.  The message tells which write it was: the first full
    block when the source holds one, else the short final block when the
    source is not empty, else the hash. *)
Theorem encrypt_failed_sink fc istr ostr :
  1 <= blocksize_ fc -> good istr = true -> obad ostr = true ->
  let R := skipn (gpos istr) (content istr) in
  e_ostr (fst (encrypt fc istr ostr)) = ostr /\
  snd (encrypt fc istr ostr) =
    Thrown (if blocksize_ fc <=? length R
            then Encrypt_error_writing_full_chunk
            else if length R =? 0 then Encrypt_error_writing_hash
            else Encrypt_error_writing_final_chunk).
Proof.
  intros Hbs G Hsink. cbv zeta. unfold encrypt.
  rewrite encrypt_chunks_step. cbn [encrypt_start e_istr e_ostr].
  set (R := skipn (gpos istr) (content istr)).
  destruct (Nat.leb_spec (blocksize_ fc) (length R)) as [Hfull|Hshort].
  - rewrite read_enough by assumption. cbv zeta. cbn [failbit].
    unfold write. rewrite Hsink, Hsink. split; reflexivity.
  - rewrite read_short by assumption. fold R. cbv zeta. cbn [failbit].
    unfold encrypt_final_chunk. cbn [e_istr gcount e_ostr].
    destruct (Nat.eqb_spec (length R) 0); cbn [negb].
    + cbn [e_ostr]. unfold write. rewrite Hsink, Hsink. split; reflexivity.
    + unfold write. rewrite Hsink, Hsink. split; reflexivity.
Qed.

(** X5.  A source that is not good when [encrypt] is called (a stream that failed
    earlier, or one at end of file) is not told apart from an empty one:
    the Engine is not called and the digest of no data is written. *)
Theorem encrypt_failed_source fc istr ostr :
  HASHSIZE_MIN <= hashsize_ fc <= HASHSIZE_MAX ->
  good istr = false -> obad ostr = false ->
  snd (encrypt fc istr ostr) = Returned /\
  e_calls (fst (encrypt fc istr ostr)) = [] /\
  obuf (e_ostr (fst (encrypt fc istr ostr))) =
    obuf ostr ++ generichash (hashkey_ fc) (hashsize_ fc) [].
Proof.
  intros Hhs G Hsink. unfold encrypt.
  rewrite encrypt_chunks_step. cbn [encrypt_start e_istr e_ostr].
  unfold read. rewrite G. cbv zeta. cbn [failbit].
  unfold encrypt_final_chunk. cbn [e_istr gcount Nat.eqb negb].
  cbn [e_ostr e_state e_calls]. unfold write. rewrite Hsink. cbn [obad].
  unfold crypto_generichash_final, crypto_generichash_init.
  cbn [hs_key hs_msg fst snd e_calls e_ostr obuf].
  rewrite store_full by (now rewrite !zeros_length, generichash_length).
  rewrite zeros_length. repeat split.
Qed.


(** ** Termination *)

Lemma encrypt_final_chunk_ends fc st :
  snd (encrypt_final_chunk fc st) <> Out_of_fuel.
Proof.
  unfold encrypt_final_chunk. destruct (negb _); [|discriminate].
  destruct (obad (write _ _)); discriminate.
Qed.

Lemma encrypt_chunks_ends fc : 1 <= blocksize_ fc -> forall fuel st,
  length (skipn (gpos (e_istr st)) (content (e_istr st))) < fuel ->
  snd (encrypt_chunks fuel fc st) <> Out_of_fuel.
Proof.
  intros Hbs. induction fuel as [|f IH]; intros st L; [lia|].
  rewrite encrypt_chunks_step.
  destruct (read (e_istr st) (blocksize_ fc)) as [istr d] eqn:ERd. cbv zeta.
  destruct (failbit istr) eqn:F; [apply encrypt_final_chunk_ends|].
  destruct (obad (write _ _)); [discriminate|].
  apply IH. cbn [e_istr]. pose proof (read_ok_inv _ _ ERd F). lia.
Qed.

(** X6.  With a block size of at least one [encrypt] terminates, whatever the
    state of its source and of its sink: every turn of its loop consumes
    [blocksize_] bytes of the source. *)
Theorem encrypt_terminates fc istr ostr :
  1 <= blocksize_ fc -> snd (encrypt fc istr ostr) <> Out_of_fuel.
Proof.
  intros Hbs. unfold encrypt.
  pose proof (@encrypt_chunks_ends fc Hbs (S (length (content istr)))
                (encrypt_start fc istr ostr)) as H.
  cbn [encrypt_start e_istr] in H.
  destruct (encrypt_chunks _ _ _) as [st oc]. cbn [snd] in H.
  destruct oc; [destruct (obad (write _ _)); discriminate | discriminate |].
  exfalso. apply H; trivial. rewrite length_skipn. lia.
Qed.

(** X7.  With a block size of zero (which the constructor refuses) the loop of
    [encrypt] never ends: a read of no bytes always succeeds, so after any
    number n of turns the loop is still running, having called the Engine n
    times on an empty block and written n tags. *)
Theorem encrypt_blocksize_zero_loops fc istr ostr (n : nat) :
  blocksize_ fc = 0 -> good istr = true -> obad ostr = false ->
  let r := encrypt_full_blocks n fc (encrypt_start fc istr ostr) in
  snd r = Out_of_fuel /\
  length (e_calls (fst r)) = n /\
  length (obuf (e_ostr (fst r))) = length (obuf ostr) + n * MACSIZE.
Proof.
  intros Hbs G Hsink. cbv zeta.
  assert (H : forall k st,
    good (e_istr st) = true -> obad (e_ostr st) = false ->
    e_plaintext st = [] ->
    snd (encrypt_full_blocks k fc st) = Out_of_fuel /\
    length (e_calls (fst (encrypt_full_blocks k fc st))) =
      length (e_calls st) + k /\
    length (obuf (e_ostr (fst (encrypt_full_blocks k fc st)))) =
      length (obuf (e_ostr st)) + k * MACSIZE).
  { induction k as [|k IH]; intros st Gs Hs Hp.
    - cbn. repeat split; lia.
    - cbn [encrypt_full_blocks]. rewrite Hbs, Hp.
      rewrite read_enough by (trivial; lia). cbv zeta. cbn [failbit firstn].
      change (store [] []) with (@nil byte).
      unfold write. rewrite Hs. cbn [obad].
      match goal with |- context [encrypt_full_blocks k fc ?s] =>
        destruct (IH s) as (I1 & I2 & I3);
          [reflexivity | reflexivity | reflexivity |];
        rewrite I1, I2, I3
      end.
      cbn [e_calls e_ostr obuf].
      rewrite !length_app, aead_encrypt_length. cbn [length].
      repeat split; lia. }
  destruct (H n (encrypt_start fc istr ostr) G Hsink) as (H1 & H2 & H3).
  { cbn [encrypt_start e_plaintext]. now rewrite Hbs. }
  now rewrite H1, H2, H3.
Qed.

Lemma decrypt_final_chunk_ends fc hash_pos st :
  snd (decrypt_final_chunk fc hash_pos st) <> Out_of_fuel.
Proof.
  unfold decrypt_final_chunk. destruct (negb (d_in_mac st)); [|discriminate].
  destruct (negb _); [|discriminate].
  destruct (aead_decrypt _ _ _ _); [|discriminate].
  destruct (obad (write _ _)); discriminate.
Qed.

Lemma decrypt_loops_ends fc hash_pos : forall fuel st,
  length (skipn (gpos (d_ifs st)) (content (d_ifs st))) < fuel ->
  snd (decrypt_loops fuel fc hash_pos st) <> Out_of_fuel.
Proof.
  pose proof MACSIZE_pos as HM.
  induction fuel as [|f IH]; intros st L; [lia|].
  rewrite decrypt_loops_step.
  destruct (read (d_ifs st) (MACSIZE + blocksize_ fc)) as [ifs d] eqn:ERd.
  cbv zeta.
  destruct (failbit ifs) eqn:F; cbn [orb]; [apply decrypt_final_chunk_ends|].
  destruct (d_in_mac st); [apply decrypt_final_chunk_ends|].
  destruct (aead_decrypt _ _ _ _); [|discriminate].
  destruct (obad (write _ _)); [discriminate|].
  apply IH. cbn [d_ifs]. pose proof (read_ok_inv _ _ ERd F). lia.
Qed.

Lemma fetch_saved_hash_content fc ifs :
  content (fst (fst (fst (fetch_saved_hash fc ifs)))) = content ifs.
Proof.
  unfold fetch_saved_hash, seekg_end, seekg_abs.
  destruct (failbit ifs); [reflexivity|].
  destruct (_ <? 0)%Z; [reflexivity|]. cbn [failbit].
  unfold read. destruct (good _); [|destruct (_ && _); reflexivity].
  destruct (_ <=? _); destruct (_ && _); reflexivity.
Qed.

(** X8.  [decrypt] terminates on every input: every turn of its loop consumes the
    [MACSIZE + blocksize_] bytes of a chunk. *)
Theorem decrypt_terminates fc ifs ostr :
  snd (decrypt fc ifs ostr) <> Out_of_fuel.
Proof.
  unfold decrypt, decrypt_blocks.
  pose proof (fetch_saved_hash_content fc ifs) as Hc.
  destruct (fetch_saved_hash fc ifs) as [[[ifs1 hp] hsv] r] eqn:EF.
  cbn [fst] in Hc.
  assert (Hr : r <> Out_of_fuel).
  { revert EF. unfold fetch_saved_hash.
    destruct (failbit (seekg_end _ _));
      [intros E; injection E as _ _ _ <-; discriminate|].
    destruct (read _ _) as [i d].
    destruct (_ && _); intros E; injection E as _ _ _ <-; discriminate. }
  destruct r; [| discriminate | contradiction].
  pose proof (@decrypt_loops_ends fc hp
                (S (length (content (seekg_beg ifs1 0))))
                (decrypt_start fc (seekg_beg ifs1 0) ostr)) as H.
  destruct (decrypt_loops _ _ _ _) as [st oc]. cbn [snd] in H.
  destruct oc; [destruct (negb _); discriminate | discriminate |].
  exfalso. apply H; trivial. cbn [decrypt_start d_ifs].
  rewrite length_skipn. lia.
Qed.


(** ** decrypt: what a successful run guarantees *)

Lemma firstn_add {A} (l : list A) (a b : nat) :
  firstn (a + b) l = firstn a l ++ firstn b (skipn a l).
Proof.
  revert l. induction a as [|a IH]; intros [|x l]; cbn [Nat.add firstn skipn app];
    try reflexivity.
  - now destruct b.
  - now rewrite IH.
Qed.

Lemma pair_Returned_inv {A} (a b : A) (oc : outcome) :
  (a, oc) = (b, Returned) -> a = b /\ oc = Returned.
Proof. intros E. injection E as -> ->. split; reflexivity. Qed.

(** When the loops of [decrypt] return, the buffers handed to the Engine
    are, in order, the bytes of the input from the current position up to
    the stored digest: nothing before the digest is skipped, and nothing of
    the digest is taken for ciphertext. *)
Lemma decrypt_loops_covers fc (hpn : nat) :
  (Z.of_nat (MACSIZE + blocksize_ fc) < two64)%Z ->
  forall fuel st st',
  good (d_ifs st) = true -> d_in_mac st = false ->
  gpos (d_ifs st) <= hpn ->
  hpn + hashsize_ fc = length (content (d_ifs st)) ->
  length (d_ciphertext st) = MACSIZE + blocksize_ fc ->
  decrypt_loops fuel fc (Z.of_nat hpn) st = (st', Returned) ->
  exists new,
    d_calls st' = d_calls st ++ new /\
    concat (map call_input new) =
      firstn (hpn - gpos (d_ifs st))
        (skipn (gpos (d_ifs st)) (content (d_ifs st))).
Proof.
  intros Hfit. pose proof MACSIZE_pos as HM.
  induction fuel as [|f IH]; intros st st' G M Hg HL Hbuf.
  - unfold decrypt_loops. cbn. intros E. discriminate.
  - rewrite decrypt_loops_step.
    set (R := skipn (gpos (d_ifs st)) (content (d_ifs st))) in *.
    assert (HR : length R = length (content (d_ifs st)) - gpos (d_ifs st))
      by apply length_skipn.
    destruct (le_lt_dec (MACSIZE + blocksize_ fc) (length R)) as [Hfull|Hshort].
    + rewrite read_enough by assumption. fold R.
      cbv zeta. cbn [failbit tellg gpos]. rewrite M. cbn [orb].
      rewrite store_full by (rewrite length_firstn; lia).
      destruct (Z.gtb_spec
                  (Z.of_nat (gpos (d_ifs st) + (MACSIZE + blocksize_ fc)))
                  (Z.of_nat hpn)) as [Hover|Hin].
      * (* the chunk runs into the digest *)
        rewrite length_firstn.
        replace (Nat.min _ _) with (MACSIZE + blocksize_ fc) by lia.
        rewrite size_sub_exact by lia.
        replace (_ - Z.to_nat _) with (hpn - gpos (d_ifs st)) by lia.
        assert (Hct : resize (firstn (MACSIZE + blocksize_ fc) R)
                        (hpn - gpos (d_ifs st)) =
                      firstn (hpn - gpos (d_ifs st)) R).
        { unfold resize. rewrite firstn_firstn, length_firstn.
          replace (Nat.min (hpn - _) _) with (hpn - gpos (d_ifs st)) by lia.
          replace (_ - Nat.min _ _) with 0 by lia. apply app_nil_r. }
        rewrite Hct.
        destruct (aead_decrypt _ _ _ _); [|intros E; discriminate].
        destruct (obad (write _ _)); [intros E; discriminate|].
        destruct f as [|f].
        { unfold decrypt_loops. cbn. intros E. discriminate. }
        edestruct (@decrypt_loops_in_mac _ f fc (Z.of_nat hpn))
          as (ifs' & ct' & E1); [|rewrite E1]; [reflexivity|].
        intros E. apply pair_Returned_inv in E. destruct E as [<- _].
        cbn [d_calls]. eexists [_]. split; [reflexivity|].
        cbn [map concat call_input]. apply app_nil_r.
      * (* a chunk that lies before the digest *)
        destruct (aead_decrypt _ _ _ _); [|intros E; discriminate].
        destruct (obad (write _ _)); [intros E; discriminate|].
        intros E. apply IH in E;
          cbn [d_ifs d_in_mac d_ciphertext content gpos good failbit eofbit
               negb andb]; trivial; try lia;
          [| rewrite length_firstn; lia].
        destruct E as (new & Hc & Hcat). cbn [d_calls d_ifs content gpos] in *.
        eexists (_ :: new). split; [rewrite Hc, <- app_assoc; reflexivity|].
        cbn [map concat call_input]. rewrite Hcat, skipn_add. fold R.
        rewrite <- firstn_add. f_equal. lia.
    + rewrite read_short by assumption. fold R.
      cbv zeta. cbn [failbit orb].
      unfold decrypt_final_chunk, final_ciphertext.
      cbn [d_in_mac d_ifs gcount d_ciphertext tellg failbit d_nonce d_calls
           d_ostr d_state].
      rewrite M. cbn [negb].
      destruct (Nat.eqb_spec (length R) 0) as [H0|H0]; cbn [negb].
      * intros E. apply pair_Returned_inv in E. destruct E as [<- _].
        cbn [d_calls]. exists []. rewrite app_nil_r. split; [reflexivity|].
        destruct R; [|simpl in H0; lia]. now rewrite firstn_nil.
      * rewrite store_length by lia.
        destruct (Nat.eqb_spec (length R) (length (d_ciphertext st))); [lia|].
        cbn [negb]. rewrite resize_store_prefix by lia.
        destruct (Z.gtb_spec (-1) (Z.of_nat hpn)); [lia|].
        cbn [Z.eqb Pos.eqb].
        assert (Hct : (if hashsize_ fc <? length R
                       then resize R (length R - hashsize_ fc) else []) =
                      firstn (hpn - gpos (d_ifs st)) R).
        { destruct (Nat.ltb_spec (hashsize_ fc) (length R)).
          - unfold resize. replace (_ - _ - _) with 0 by lia.
            rewrite app_nil_r. f_equal. lia.
          - replace (hpn - gpos (d_ifs st)) with 0 by lia. reflexivity. }
        rewrite Hct.
        destruct (aead_decrypt _ _ _ _); [|intros E; discriminate].
        destruct (obad (write _ _)); [intros E; discriminate|].
        intros E. apply pair_Returned_inv in E. destruct E as [<- _].
        cbn [d_calls]. eexists [_]. split; [reflexivity|].
        cbn [map concat call_input]. apply app_nil_r.
Qed.


Lemma fetch_saved_hash_failed fc ifs :
  failbit ifs = true ->
  snd (fetch_saved_hash fc ifs) = Thrown Decrypt_cant_seek_to_end_for_hash.
Proof.
  intros F. unfold fetch_saved_hash, seekg_end, seekg_abs. now rewrite F.
Qed.

(** The three ways [decrypt] can go before its loops: the seek fails (failed
    stream, or input shorter than the digest), or the digest is fetched. *)
Lemma decrypt_blocks_cases fc ifs ostr :
  (Z.of_nat (hashsize_ fc) < 2 ^ 63)%Z ->
  (failbit ifs = true \/ length (content ifs) < hashsize_ fc) /\
  decrypt fc ifs ostr =
    (decrypt_start fc (fst (fst (fst (fetch_saved_hash fc ifs)))) ostr,
     Thrown Decrypt_cant_seek_to_end_for_hash)
  \/
  (failbit ifs = false /\ hashsize_ fc <= length (content ifs)) /\
  decrypt_blocks fc ifs ostr =
    (let (st, r) :=
       decrypt_loops (S (length (content ifs))) fc
         (Z.of_nat (length (content ifs) - hashsize_ fc))
         (decrypt_start fc
            (mk_istream (content ifs) 0 false false (hashsize_ fc)) ostr) in
     (st, skipn (length (content ifs) - hashsize_ fc) (content ifs), r)).
Proof.
  intros Hhs.
  destruct (failbit ifs) eqn:F;
    [|destruct (le_lt_dec (hashsize_ fc) (length (content ifs))) as [L|L]].
  - left. split; [now left|]. pose proof (fetch_saved_hash_failed fc ifs F) as E.
    unfold decrypt, decrypt_blocks.
    destruct (fetch_saved_hash fc ifs) as [[[ifs1 hp] hsv] r].
    cbn [snd fst] in *. now subst r.
  - right. split; [now split|]. unfold decrypt_blocks.
    rewrite fetch_saved_hash_ok by assumption. reflexivity.
  - left. split; [now right|].
    pose proof (fetch_saved_hash_short fc ifs Hhs L) as E.
    unfold decrypt, decrypt_blocks.
    destruct (fetch_saved_hash fc ifs) as [[[ifs1 hp] hsv] r].
    cbn [snd fst] in *. now subst r.
Qed.

(** X9.  When [decrypt] returns, the input held a digest, every chunk handed to
    the Engine verified, the chunks were, in order, all the bytes of the
    input before its last [hashsize_] bytes, these last bytes are the keyed
    hash of all the bytes before them, and the sink received the plaintexts
    of the chunks, in order. *)
Theorem decrypt_success_sound fc ifs ostr :
  valid_configuration fc ->
  snd (decrypt fc ifs ostr) = Returned ->
  let st := fst (decrypt fc ifs ostr) in
  let n := length (content ifs) - hashsize_ fc in
  hashsize_ fc <= length (content ifs) /\
  Forall (verified fc) (d_calls st) /\
  concat (map call_input (d_calls st)) = firstn n (content ifs) /\
  skipn n (content ifs) =
    generichash (hashkey_ fc) (hashsize_ fc) (firstn n (content ifs)) /\
  obuf (d_ostr st) = obuf ostr ++ recovered fc (d_calls st).
Proof.
  intros V. cbv zeta.
  destruct (valid_sizes V) as (_ & _ & Hhs & Hfit).
  destruct (decrypt_blocks_cases fc ifs ostr Hhs) as [[_ E] | [[F L] E]].
  - rewrite E. cbn [snd]. discriminate.
  - pose proof (@decrypt_blocks_stretch _ _ fc ifs ostr) as Hs.
    unfold decrypt. rewrite E in *.
    destruct (decrypt_loops _ _ _ _) as [st r] eqn:EL.
    specialize (Hs st _ r eq_refl). destruct Hs as (_ & _ & Hret).
    destruct r; cbn [snd fst]; [| discriminate | discriminate].
    destruct (Hret eq_refl) as (Hv & Ho & Hm & Hk).
    apply (@decrypt_loops_covers fc (length (content ifs) - hashsize_ fc) Hfit)
      in EL; cbn [decrypt_start d_ifs d_in_mac d_ciphertext content gpos good
                  failbit eofbit negb andb]; trivial; try lia;
      [| apply zeros_length].
    destruct EL as (new & Hc & Hcat).
    cbn [decrypt_start d_calls d_ifs content gpos app skipn] in Hc, Hcat.
    subst new. rewrite Nat.sub_0_r in Hcat.
    unfold crypto_generichash_final. rewrite zeros_length, Hk, Hm, Hcat.
    rewrite (hash_buffer _ V).
    destruct (data_eqb _ _) eqn:Eq; cbn [negb snd fst]; [|discriminate].
    intros _. apply data_eqb_eq in Eq. repeat split; trivial.
    now symmetry.
Qed.

(** ** decrypt: the errors of the prologue *)

(** X10.  "can't seek to the end for hash" is thrown exactly when the input stream
    is already failed or the input is shorter than the digest, and then
    before anything else is done; "read partial hash" is never thrown. *)
Theorem decrypt_seek_error_iff fc ifs ostr :
  (Z.of_nat (hashsize_ fc) < 2 ^ 63)%Z ->
  (snd (decrypt fc ifs ostr) = Thrown Decrypt_cant_seek_to_end_for_hash <->
   failbit ifs = true \/ length (content ifs) < hashsize_ fc) /\
  snd (decrypt fc ifs ostr) <> Thrown Decrypt_read_partial_hash.
Proof.
  intros Hhs.
  destruct (decrypt_blocks_cases fc ifs ostr Hhs) as [[H E] | [[F L] E]].
  - rewrite E. cbn [snd]. split; [tauto | discriminate].
  - unfold decrypt. rewrite E.
    destruct (decrypt_loops _ _ _ _) as [st r] eqn:EL.
    apply decrypt_loops_stretch in EL.
    destruct EL as (new & (_ & _ & _ & H1 & H2 & H3) & _).
    assert (Hno : ~ (failbit ifs = true \/ length (content ifs) < hashsize_ fc))
      by (intros [H | H]; [congruence | lia]).
    destruct r; [destruct (negb _)|..]; cbn [snd]; split;
      try discriminate; try assumption;
      (split; [try discriminate; try contradiction | intros H; contradiction]).
Qed.


(** ** decrypt: what reaches the sink *)

Lemma recovered_failed fc c : opened fc c = None -> recovered fc [c] = [].
Proof. unfold recovered. simpl. now intros ->. Qed.

Lemma ostream_eta (o : ostream) :
  obad o = false -> o = mk_ostream (obuf o ++ []) false.
Proof. destruct o. cbn. intros ->. now rewrite app_nil_r. Qed.

Lemma verified_writes_nil fc st oc :
  obad (d_ostr st) = false -> oc <> Thrown Engine_failure ->
  verified_writes fc st st oc [].
Proof.
  intros Hs Hoc. unfold verified_writes, recovered. cbn [map concat].
  rewrite app_nil_r. split; [reflexivity|]. split; [now apply ostream_eta|].
  right. split; [assumption | constructor].
Qed.

Lemma verified_writes_failed fc st st' c :
  obad (d_ostr st) = false ->
  d_calls st' = d_calls st ++ [c] -> d_ostr st' = d_ostr st ->
  opened fc c = None ->
  verified_writes fc st st' (Thrown Engine_failure) [c].
Proof.
  intros Hs Hc Ho E. unfold verified_writes.
  rewrite (recovered_failed _ _ E), Ho. split; [exact Hc|].
  split; [now apply ostream_eta|].
  left. split; [reflexivity|]. exists [], c. repeat split; trivial.
Qed.

Lemma verified_writes_cons fc st st1 st' oc c p new :
  opened fc c = Some p ->
  d_calls st1 = d_calls st ++ [c] ->
  d_ostr st1 = mk_ostream (obuf (d_ostr st) ++ p) false ->
  verified_writes fc st1 st' oc new ->
  verified_writes fc st st' oc (c :: new).
Proof.
  intros E Hc Ho (Hc' & Ho' & H). unfold verified_writes.
  assert (Hv : verified fc c) by (unfold verified; now rewrite E).
  split; [rewrite Hc', Hc, <- app_assoc; reflexivity|].
  split.
  - rewrite Ho', Ho. cbn [obuf].
    change (c :: new) with ([c] ++ new).
    now rewrite recovered_app, (recovered_one _ _ E), app_assoc.
  - destruct H as [[Hoc (pre & c' & -> & Hpre & Hf)] | [Hoc Hall]].
    + left. split; [exact Hoc|]. exists (c :: pre), c'.
      repeat split; trivial. now constructor.
    + right. split; [exact Hoc | now constructor].
Qed.

Lemma decrypt_final_chunk_writes fc hash_pos st st' oc :
  obad (d_ostr st) = false ->
  decrypt_final_chunk fc hash_pos st = (st', oc) ->
  exists new, verified_writes fc st st' oc new.
Proof.
  intros Hs. unfold decrypt_final_chunk.
  destruct (negb (d_in_mac st));
    [|intros E; injection E as <- <-; exists [];
      apply verified_writes_nil; [assumption | discriminate]].
  destruct (negb (gcount (d_ifs st) =? 0));
    [|intros E; injection E as <- <-; exists [];
      apply verified_writes_nil; [assumption | discriminate]].
  set (ct := final_ciphertext fc hash_pos st).
  destruct (aead_decrypt header_ ct (key_ fc) (d_nonce st)) as [p|] eqn:EO.
  - unfold write. rewrite Hs. cbn [obad]. intros E. injection E as <- <-.
    exists [mk_call (d_nonce st) ct].
    match goal with |- verified_writes _ _ ?s _ _ =>
      assert (Hw : verified_writes fc s s Returned [])
        by (apply verified_writes_nil; [reflexivity | discriminate]);
      apply verified_writes_cons with (st1 := s) (p := p);
        [exact EO | reflexivity | reflexivity | exact Hw]
    end.
  - intros E. injection E as <- <-. exists [mk_call (d_nonce st) ct].
    now apply verified_writes_failed.
Qed.

Lemma decrypt_loops_writes fc hash_pos : forall fuel st st' oc,
  obad (d_ostr st) = false ->
  decrypt_loops fuel fc hash_pos st = (st', oc) ->
  exists new, verified_writes fc st st' oc new.
Proof.
  induction fuel as [|f IH]; intros st st' oc Hs.
  - unfold decrypt_loops. cbn. intros E. injection E as <- <-.
    exists []. apply verified_writes_nil; [assumption | discriminate].
  - rewrite decrypt_loops_step.
    destruct (read (d_ifs st) (MACSIZE + blocksize_ fc)) as [ifs d].
    cbv zeta.
    destruct (failbit ifs || d_in_mac st).
    + intros E. apply decrypt_final_chunk_writes in E; [|exact Hs].
      destruct E as (new & Hc & Ho & H). exists new. split; [exact Hc|].
      split; [exact Ho | exact H].
    + set (ct := if (tellg ifs >? hash_pos)%Z then _ else _).
      destruct (aead_decrypt header_ ct (key_ fc) (d_nonce st)) as [p|] eqn:EO.
      * unfold write. rewrite Hs. cbn [obad]. intros E.
        apply IH in E; [|reflexivity]. destruct E as (new & Hw).
        exists (mk_call (d_nonce st) ct :: new).
        match type of Hw with verified_writes _ ?s _ _ _ =>
          apply verified_writes_cons with (st1 := s) (p := p);
            [exact EO | reflexivity | reflexivity | exact Hw]
        end.
      * intros E. injection E as <- <-. exists [mk_call (d_nonce st) ct].
        now apply verified_writes_failed.
Qed.

(** X11.  Only verified plaintext reaches the sink.  Whatever the input and
    however [decrypt] ends, a sink that was good holds, after what it held
    before, the plaintexts of the Engine calls that verified, in order.  When
    [decrypt] ends with the Engine's exception the call that threw is the
    last one and every call before it verified; otherwise every call
    verified. *)
Theorem decrypt_writes_verified_only fc ifs ostr :
  (Z.of_nat (hashsize_ fc) < 2 ^ 63)%Z ->
  obad ostr = false ->
  let d := decrypt fc ifs ostr in
  obuf (d_ostr (fst d)) = obuf ostr ++ recovered fc (d_calls (fst d)) /\
  (snd d = Thrown Engine_failure ->
   exists pre c, d_calls (fst d) = pre ++ [c] /\
                 Forall (verified fc) pre /\ opened fc c = None) /\
  (snd d <> Thrown Engine_failure -> Forall (verified fc) (d_calls (fst d))).
Proof.
  intros Hhs Hsink. cbv zeta.
  destruct (decrypt_blocks_cases fc ifs ostr Hhs) as [[_ E] | [_ E]].
  - rewrite E. cbn [fst snd decrypt_start d_ostr d_calls].
    unfold recovered. cbn. rewrite app_nil_r.
    repeat split; [discriminate | constructor].
  - unfold decrypt. rewrite E.
    destruct (decrypt_loops _ _ _ _) as [st r] eqn:EL.
    apply decrypt_loops_writes in EL; [|exact Hsink].
    destruct EL as (new & Hc & Ho & H).
    cbn [decrypt_start d_calls d_ostr app] in Hc, Ho. subst new.
    assert (Hst : forall b : bool,
      fst (if b then (st, Thrown Decrypt_hash_mismatch) else (st, Returned))
      = st) by (now intros []).
    destruct H as [[-> Hex] | [Hne Hall]].
    + cbn [fst snd]. rewrite Ho. cbn [obuf].
      repeat split; trivial. intros Hc. contradiction.
    + destruct r; cbn [fst snd]; rewrite ?Hst, Ho; cbn [obuf].
      * repeat split; trivial.
        destruct (negb _); cbn [snd]; discriminate.
      * repeat split; trivial. intros Hc. contradiction.
      * repeat split; trivial. discriminate.
Qed.


(** ** decrypt: tampering *)

(** X12.  A digest that is not the keyed hash of the blocks is never accepted:
    with the blocks [encrypt] made of [P] followed by any other [hashsize_]
    bytes, [decrypt] writes [P] and throws: "hash mismatch", or the
    Engine's exception when [P] ends on a block boundary. *)
Theorem decrypt_rejects_wrong_digest fc P D ostr :
  valid_configuration fc -> length D = hashsize_ fc ->
  D <> generichash (hashkey_ fc) (hashsize_ fc)
         (concat (ciphertext_blocks fc P)) ->
  obad ostr = false ->
  let d := decrypt fc (open_file (concat (ciphertext_blocks fc P) ++ D)) ostr in
  snd d = Thrown (if length P mod blocksize_ fc =? 0
                  then Engine_failure else Decrypt_hash_mismatch) /\
  obuf (d_ostr (fst d)) = obuf ostr ++ P.
Proof.
  intros V HD Hne Hsink. cbv zeta.
  destruct (@decrypt_run _ _ fc P D
              (open_file (concat (ciphertext_blocks fc P) ++ D)) ostr V HD
              eq_refl eq_refl Hsink) as (st' & E & Ho & _).
  rewrite E. cbn [fst snd]. rewrite Ho. cbn [obuf]. split; [|reflexivity].
  destruct (length P mod blocksize_ fc =? 0); [reflexivity|].
  destruct (data_eqb _ D) eqn:Eq; [|reflexivity].
  apply data_eqb_eq in Eq. congruence.
Qed.

(** The loop of [decrypt] over full blocks that lie before the digest. *)
Lemma decrypt_loops_full_blocks fc (hpn : nat) :
  forall cs st fuel rest,
  Forall (fun c => length c = blocksize_ fc) cs ->
  good (d_ifs st) = true ->
  skipn (gpos (d_ifs st)) (content (d_ifs st)) =
    concat (seal_chunks (key_ fc) (d_nonce st) cs) ++ rest ->
  gpos (d_ifs st) + length cs * (MACSIZE + blocksize_ fc) <= hpn ->
  d_in_mac st = false ->
  length (d_ciphertext st) = MACSIZE + blocksize_ fc ->
  obad (d_ostr st) = false ->
  exists st',
    decrypt_loops (length cs + fuel) fc (Z.of_nat hpn) st =
      decrypt_loops fuel fc (Z.of_nat hpn) st' /\
    good (d_ifs st') = true /\
    skipn (gpos (d_ifs st')) (content (d_ifs st')) = rest /\
    gpos (d_ifs st') =
      gpos (d_ifs st) + length cs * (MACSIZE + blocksize_ fc) /\
    d_ostr st' = mk_ostream (obuf (d_ostr st) ++ concat cs) false /\
    d_calls st' =
      d_calls st ++
      calls_from (d_nonce st) (seal_chunks (key_ fc) (d_nonce st) cs) /\
    d_nonce st' = nonce_after (length cs) (d_nonce st) /\
    d_in_mac st' = false /\
    length (d_ciphertext st') = MACSIZE + blocksize_ fc.
Proof.
  induction cs as [|c cs IH]; intros st fuel rest Hall G ER Hg M Hbuf Hsink.
  - exists st. cbn [length Nat.add concat seal_chunks calls_from app
                    nonce_after Nat.iter nat_rect Nat.mul] in *.
    rewrite Nat.add_0_r, !app_nil_r. repeat split; trivial.
    rewrite <- (app_nil_r (obuf (d_ostr st))). now apply ostream_eta.
  - inversion Hall as [|? ? Hc Hall']; subst.
    cbn [length Nat.add seal_chunks concat calls_from] in *.
    set (n := d_nonce st) in *.
    set (C := aead_encrypt header_ c (key_ fc) n) in *.
    assert (HC' : length C = MACSIZE + blocksize_ fc)
      by (unfold C; rewrite aead_encrypt_length; lia).
    rewrite decrypt_loops_step.
    rewrite read_enough by (rewrite ?ER, ?length_app; trivial; lia).
    rewrite ER, <- app_assoc, (firstn_exact _ _ HC').
    cbv zeta. cbn [failbit tellg gpos]. rewrite M. cbn [orb].
    rewrite store_full by lia.
    destruct (Z.gtb_spec
                (Z.of_nat (gpos (d_ifs st) + (MACSIZE + blocksize_ fc)))
                (Z.of_nat hpn)); [lia|].
    unfold C at 1. fold n. rewrite aead_decrypt_encrypt. fold C.
    unfold write. rewrite Hsink. cbn [obad].
    edestruct (IH (mk_dec
        (mk_istream (content (d_ifs st))
           (gpos (d_ifs st) + (MACSIZE + blocksize_ fc)) false false
           (MACSIZE + blocksize_ fc))
        (mk_ostream (obuf (d_ostr st) ++ c) false)
        (crypto_generichash_update (d_state st) C) C (increment n) false
        (d_calls st ++ [mk_call n C])) fuel rest)
      as (st' & E & G' & ER' & Hg' & Ho' & Hc' & Hn' & Hm' & Hb');
      cbn [d_ifs d_ostr d_state d_ciphertext d_nonce d_in_mac d_calls
           content gpos good failbit eofbit negb andb obuf obad] in *;
      trivial; try lia.
    { rewrite skipn_add, ER, <- app_assoc. apply (skipn_exact _ _ HC'). }
    exists st'. rewrite E, Ho', Hc', Hn', <- !app_assoc. cbn [app].
    rewrite nonce_after_S. repeat split; trivial. lia.
Qed.

(** X13.  A block that the Engine rejects stops [decrypt] at once.  With k full
    blocks sealed by [encrypt], then a chunk [X] of the size of a block that
    the Engine rejects under the nonce incremented k times (a block that was
    altered, or moved from another place), then anything that holds at
    least a digest: [decrypt] ends with the Engine's exception, having
    written the plaintext of the k blocks before [X] and nothing else;
    [X] is the last buffer handed to the Engine. *)
Theorem decrypt_rejected_block fc cs X rest ifs ostr :
  valid_configuration fc ->
  Forall (fun c => length c = blocksize_ fc) cs ->
  length X = MACSIZE + blocksize_ fc ->
  hashsize_ fc <= length rest ->
  content ifs = concat (seal_chunks (key_ fc) (nonce_ fc) cs) ++ X ++ rest ->
  failbit ifs = false -> obad ostr = false ->
  aead_decrypt header_ X (key_ fc) (nonce_after (length cs) (nonce_ fc))
    = None ->
  let d := decrypt fc ifs ostr in
  snd d = Thrown Engine_failure /\
  obuf (d_ostr (fst d)) = obuf ostr ++ concat cs /\
  d_calls (fst d) =
    calls_from (nonce_ fc) (seal_chunks (key_ fc) (nonce_ fc) cs) ++
    [mk_call (nonce_after (length cs) (nonce_ fc)) X].
Proof.
  intros V Hall HX Hrest EC F Hsink Hrej. cbv zeta.
  destruct (valid_sizes V) as (Hbs & _ & Hhs & Hfit).
  assert (HL : length (content ifs) =
               length cs * (MACSIZE + blocksize_ fc)
               + (MACSIZE + blocksize_ fc) + length rest).
  { rewrite EC, !length_app, seal_chunks_total, HX.
    assert (Hcat : length (concat cs) = length cs * blocksize_ fc).
    { clear -Hall. induction Hall as [|c cs Hc _ IH]; [reflexivity|].
      cbn [concat length]. rewrite length_app, IH, Hc. lia. }
    rewrite Hcat. unfold data_t in *. nia. }
  pose proof MACSIZE_pos as HM.
  assert (Hk : length cs <= length cs * (MACSIZE + blocksize_ fc)) by nia.
  unfold data_t in *.
  destruct (decrypt_blocks_cases fc ifs ostr Hhs) as [[[H|H] _] | [_ E]];
    [congruence | lia |].
  unfold decrypt. rewrite E.
  set (hpn := length (content ifs) - hashsize_ fc).
  replace (S (length (content ifs)))
    with (length cs + S (length (content ifs) - length cs)) by lia.
  destruct (@decrypt_loops_full_blocks fc hpn cs
              (decrypt_start fc
                 (mk_istream (content ifs) 0 false false (hashsize_ fc)) ostr)
              (S (length (content ifs) - length cs)) (X ++ rest))
    as (st' & E' & G' & ER' & Hg' & Ho' & Hc' & Hn' & Hm' & Hb');
    cbn [decrypt_start d_ifs d_ostr d_state d_ciphertext d_nonce d_in_mac
         d_calls content gpos good failbit eofbit negb andb skipn app
         Nat.add] in *; trivial; try (unfold hpn; lia);
    [apply zeros_length|].
  rewrite E'. rewrite decrypt_loops_step.
  rewrite read_enough by (rewrite ?ER', ?length_app; trivial; lia).
  rewrite ER', (firstn_exact _ _ HX).
  cbv zeta. cbn [failbit tellg gpos]. rewrite Hm'. cbn [orb].
  rewrite store_full by lia.
  destruct (Z.gtb_spec
              (Z.of_nat (gpos (d_ifs st') + (MACSIZE + blocksize_ fc)))
              (Z.of_nat hpn)); [unfold hpn in *; lia|].
  rewrite Hn', Hrej. cbn [fst snd d_ostr d_calls].
  rewrite Ho', Hc'. cbn [obuf]. repeat split.
Qed.

(** ** decrypt rewinds its input *)

(** X14.  [decrypt] seeks to the end and then to the start of its input, so what
    it does depends on the bytes of the file and not on where the stream
    stood, on its [eofbit] or on its last [gcount]. *)
Theorem decrypt_rewinds fc ifs1 ifs2 ostr :
  (Z.of_nat (hashsize_ fc) < 2 ^ 63)%Z ->
  content ifs1 = content ifs2 ->
  failbit ifs1 = false -> failbit ifs2 = false ->
  snd (decrypt fc ifs1 ostr) = snd (decrypt fc ifs2 ostr) /\
  d_ostr (fst (decrypt fc ifs1 ostr)) = d_ostr (fst (decrypt fc ifs2 ostr)) /\
  d_calls (fst (decrypt fc ifs1 ostr)) = d_calls (fst (decrypt fc ifs2 ostr)).
Proof.
  intros Hhs EC F1 F2.
  destruct (decrypt_blocks_cases fc ifs1 ostr Hhs) as [[[H|H] E1] | [[_ L1] E1]];
    [congruence | |];
    (destruct (decrypt_blocks_cases fc ifs2 ostr Hhs)
       as [[[H'|H'] E2] | [[_ L2] E2]]; [congruence | |]);
    try (rewrite EC in *; lia).
  - rewrite E1, E2. repeat split.
  - unfold decrypt. rewrite E1, E2, EC. repeat split.
Qed.


(** ** encrypt: blocks are sealed one by one *)




End MoreProperties.

(** * The further properties on concrete inputs *)

Lemma example_hashsize_small :
  (Z.of_nat (hashsize_ example_codec) < 2 ^ 63)%Z.
Proof. reflexivity. Qed.

Lemma encrypt_artifact_size_witness :
  valid_configuration example_codec /\
  length (e_calls (fst (encrypt example_codec (open_file [x41; x42; x43])
                          example_sink))) = 2 /\
  length (obuf (e_ostr (fst (encrypt example_codec (open_file [x41; x42; x43])
                               example_sink)))) = 51.
Proof.
  split; [exact example_codec_valid|].
  exact (@encrypt_artifact_size _ _ example_codec [x41; x42; x43] example_sink
           example_codec_valid eq_refl).
Defined.

Lemma encrypt_exhausts_source_witness :
  e_istr (fst (encrypt example_codec (open_file [x41; x42; x43]) example_sink))
  = mk_istream [x41; x42; x43] 3 true true 1.
Proof.
  apply (encrypt_exhausts_source example_codec (open_file [x41; x42; x43])
           example_sink); [cbn; lia | reflexivity | reflexivity].
Defined.

Lemma encrypt_failed_sink_witness :
  e_ostr (fst (encrypt example_codec (open_file [x41; x42; x43])
                 (mk_ostream [x07] true))) = mk_ostream [x07] true /\
  snd (encrypt example_codec (open_file [x41; x42; x43])
         (mk_ostream [x07] true)) = Thrown Encrypt_error_writing_full_chunk.
Proof.
  apply (encrypt_failed_sink example_codec (open_file [x41; x42; x43])
           (mk_ostream [x07] true)); [cbn; lia | reflexivity | reflexivity].
Defined.

Lemma encrypt_failed_source_witness :
  snd (encrypt example_codec (mk_istream [x41; x42; x43] 0 true false 0)
         example_sink) = Returned /\
  e_calls (fst (encrypt example_codec
                  (mk_istream [x41; x42; x43] 0 true false 0) example_sink))
    = [] /\
  obuf (e_ostr (fst (encrypt example_codec
                       (mk_istream [x41; x42; x43] 0 true false 0)
                       example_sink))) =
    obuf example_sink ++
    generichash (hashkey_ example_codec) (hashsize_ example_codec) [].
Proof.
  apply (encrypt_failed_source example_codec
           (mk_istream [x41; x42; x43] 0 true false 0) example_sink);
    [cbn; lia | reflexivity | reflexivity].
Defined.

Lemma encrypt_terminates_witness :
  snd (encrypt example_codec (open_file [x41; x42; x43]) example_sink)
    <> Out_of_fuel.
Proof.
  apply (encrypt_terminates example_codec (open_file [x41; x42; x43])
           example_sink).
  cbn. lia.
Defined.

Lemma encrypt_blocksize_zero_loops_witness :
  snd (encrypt_full_blocks 5 example_codec_zero
         (encrypt_start example_codec_zero (open_file [x41]) example_sink))
    = Out_of_fuel /\
  length (e_calls (fst (encrypt_full_blocks 5 example_codec_zero
         (encrypt_start example_codec_zero (open_file [x41]) example_sink))))
    = 5 /\
  length (obuf (e_ostr (fst (encrypt_full_blocks 5 example_codec_zero
         (encrypt_start example_codec_zero (open_file [x41]) example_sink)))))
    = 80.
Proof.
  exact (encrypt_blocksize_zero_loops example_codec_zero (open_file [x41])
           example_sink 5 eq_refl eq_refl eq_refl).
Defined.

Lemma decrypt_terminates_witness :
  snd (decrypt example_codec (open_file example_tampered) example_sink)
    <> Out_of_fuel.
Proof.
  exact (decrypt_terminates example_codec (open_file example_tampered)
           example_sink).
Defined.

Lemma example_artifact_accepted :
  snd (decrypt example_codec (open_file example_artifact) example_sink)
    = Returned.
Proof. vm_compute. reflexivity. Qed.

Lemma decrypt_success_sound_witness :
  valid_configuration example_codec /\
  snd (decrypt example_codec (open_file example_artifact) example_sink)
    = Returned /\
  concat (map call_input
            (d_calls (fst (decrypt example_codec (open_file example_artifact)
                             example_sink)))) =
    firstn (length (content (open_file example_artifact))
            - hashsize_ example_codec) (content (open_file example_artifact)).
Proof.
  split; [exact example_codec_valid|]. split; [exact example_artifact_accepted|].
  destruct (@decrypt_success_sound _ _ example_codec
              (open_file example_artifact) example_sink example_codec_valid
              example_artifact_accepted)
    as (_ & _ & H & _).
  exact H.
Defined.

Lemma decrypt_seek_error_iff_witness :
  snd (decrypt example_codec (open_file (zeros 15)) example_sink) =
    Thrown Decrypt_cant_seek_to_end_for_hash.
Proof.
  apply (proj1 (decrypt_seek_error_iff example_codec (open_file (zeros 15))
                  example_sink example_hashsize_small)).
  right. cbn. lia.
Defined.

Lemma decrypt_writes_verified_only_witness :
  obuf (d_ostr (fst (decrypt example_codec (open_file example_misplaced)
                       example_sink))) =
    obuf example_sink ++
    recovered example_codec
      (d_calls (fst (decrypt example_codec (open_file example_misplaced)
                       example_sink))).
Proof.
  exact (proj1 (decrypt_writes_verified_only example_codec
                  (open_file example_misplaced) example_sink
                  example_hashsize_small eq_refl)).
Defined.

Lemma example_wrong_digest :
  zeros 16 <>
  generichash (hashkey_ example_codec) (hashsize_ example_codec)
    (concat (ciphertext_blocks example_codec [x41])).
Proof. vm_compute. discriminate. Qed.

Lemma decrypt_rejects_wrong_digest_witness :
  valid_configuration example_codec /\
  snd (decrypt example_codec (open_file example_tampered) example_sink) =
    Thrown Decrypt_hash_mismatch /\
  obuf (d_ostr (fst (decrypt example_codec (open_file example_tampered)
                       example_sink))) = obuf example_sink ++ [x41].
Proof.
  split; [exact example_codec_valid|].
  exact (@decrypt_rejects_wrong_digest _ _ example_codec [x41] (zeros 16)
           example_sink example_codec_valid eq_refl example_wrong_digest
           eq_refl).
Defined.

Lemma example_misplaced_rejected :
  @aead_decrypt toy_sodium header_ example_misplaced_block
    (key_ example_codec) (nonce_after 1 (nonce_ example_codec)) = None.
Proof. vm_compute. reflexivity. Qed.

Lemma decrypt_rejected_block_witness :
  valid_configuration example_codec /\
  snd (decrypt example_codec (open_file example_misplaced) example_sink) =
    Thrown Engine_failure /\
  obuf (d_ostr (fst (decrypt example_codec (open_file example_misplaced)
                       example_sink))) = [x41; x42].
Proof.
  split; [exact example_codec_valid|].
  assert (Hall : Forall (fun c : data_t => length c = blocksize_ example_codec)
                   [[x41; x42]]) by (repeat constructor).
  assert (HX : length example_misplaced_block
               = MACSIZE + blocksize_ example_codec) by reflexivity.
  assert (Hrest : hashsize_ example_codec <= length (zeros 16))
    by (cbn; lia).
  destruct (@decrypt_rejected_block _ _ example_codec [[x41; x42]]
              example_misplaced_block (zeros 16)
              (open_file example_misplaced) example_sink
              example_codec_valid Hall HX Hrest eq_refl eq_refl eq_refl
              example_misplaced_rejected) as (H1 & H2 & _).
  split; [exact H1 | exact H2].
Defined.

Lemma decrypt_rewinds_witness :
  snd (decrypt example_codec (open_file example_artifact) example_sink) =
  snd (decrypt example_codec (mk_istream example_artifact 7 false true 3)
         example_sink).
Proof.
  exact (proj1 (decrypt_rewinds example_codec (open_file example_artifact)
                  (mk_istream example_artifact 7 false true 3) example_sink
                  example_hashsize_small eq_refl eq_refl eq_refl)).
Defined.


(** * decrypt and the blocks of its input *)

Section InputBlocks.

Context `{Sod : Sodium} {HC : SodiumContract Sod}.

Lemma chunks_fuel_cons (f bs : nat) (P : data_t) :
  1 <= length P ->
  chunks_fuel (S f) bs P = firstn bs P :: chunks_fuel f bs (skipn bs P).
Proof. destruct P; [simpl; lia | reflexivity]. Qed.

Lemma chunks_fuel_single (f bs : nat) (P : data_t) :
  1 <= length P <= bs -> chunks_fuel (S f) bs P = [P].
Proof.
  intros L. rewrite chunks_fuel_cons by lia.
  rewrite firstn_all2, skipn_all2 by lia. now rewrite chunks_fuel_nil.
Qed.

(** When the loops of [decrypt] return, the Engine calls they made are the
    calls on the blocks of the input that were left, each under its own
    nonce, and the last of these blocks is a short one: after a last full
    block the loops do not return but call the Engine on an empty buffer. *)
Lemma decrypt_loops_blocks fc (hpn : nat) :
  (Z.of_nat (MACSIZE + blocksize_ fc) < two64)%Z ->
  1 <= hashsize_ fc ->
  forall fuel st st' f,
  good (d_ifs st) = true -> d_in_mac st = false ->
  gpos (d_ifs st) <= hpn ->
  hpn + hashsize_ fc = length (content (d_ifs st)) ->
  length (d_ciphertext st) = MACSIZE + blocksize_ fc ->
  hpn - gpos (d_ifs st) <= f ->
  decrypt_loops fuel fc (Z.of_nat hpn) st = (st', Returned) ->
  d_calls st' =
    d_calls st ++
    calls_from (d_nonce st)
      (chunks_fuel f (MACSIZE + blocksize_ fc)
         (firstn (hpn - gpos (d_ifs st))
            (skipn (gpos (d_ifs st)) (content (d_ifs st))))) /\
  (hpn - gpos (d_ifs st)) mod (MACSIZE + blocksize_ fc) <> 0.
Proof.
  intros Hfit Hhs. pose proof MACSIZE_pos as HM.
  induction fuel as [|k IH]; intros st st' f G M Hg HL Hbuf Hf.
  - unfold decrypt_loops. cbn. intros E. discriminate.
  - rewrite decrypt_loops_step.
    set (R := skipn (gpos (d_ifs st)) (content (d_ifs st))) in *.
    set (m := hpn - gpos (d_ifs st)) in *.
    set (B := MACSIZE + blocksize_ fc) in *.
    assert (HR : length R = m + hashsize_ fc)
      by (unfold R, m; rewrite length_skipn; lia).
    assert (Hreg : length (firstn m R) = m) by (rewrite length_firstn; lia).
    destruct (le_lt_dec B (length R)) as [Hfull|Hshort].
    + rewrite read_enough by assumption. fold R.
      cbv zeta. cbn [failbit tellg gpos]. rewrite M. cbn [orb].
      rewrite store_full by (rewrite length_firstn; lia).
      destruct (Z.gtb_spec (Z.of_nat (gpos (d_ifs st) + B)) (Z.of_nat hpn))
        as [Hover|Hin].
      * (* the chunk runs into the digest *)
        rewrite length_firstn.
        replace (Nat.min B (length R)) with B by lia.
        rewrite size_sub_exact by (unfold B in *; lia).
        replace (B - Z.to_nat _) with m by (unfold m; lia).
        assert (Hct : resize (firstn B R) m = firstn m R).
        { unfold resize. rewrite firstn_firstn, length_firstn.
          replace (Nat.min m B) with m by (unfold m; lia).
          replace (m - Nat.min B (length R)) with 0 by (unfold m; lia).
          apply app_nil_r. }
        rewrite Hct.
        destruct (Nat.eq_dec m 0) as [H0|H0].
        { rewrite aead_decrypt_short by (rewrite Hreg; lia).
          intros E. discriminate. }
        destruct (aead_decrypt _ _ _ _); [|intros E; discriminate].
        destruct (obad (write _ _)); [intros E; discriminate|].
        destruct k as [|k].
        { unfold decrypt_loops. cbn. intros E. discriminate. }
        edestruct (@decrypt_loops_in_mac _ k fc (Z.of_nat hpn))
          as (ifs' & ct' & E1); [|rewrite E1]; [reflexivity|].
        intros E. apply pair_Returned_inv in E. destruct E as [<- _].
        cbn [d_calls]. destruct f as [|f]; [lia|].
        rewrite chunks_fuel_single by (rewrite Hreg; unfold m; lia).
        split; [reflexivity|]. rewrite Nat.mod_small by (unfold m; lia).
        exact H0.
      * (* a full block that lies before the digest *)
        destruct (aead_decrypt _ _ _ _); [|intros E; discriminate].
        destruct (obad (write _ _)); [intros E; discriminate|].
        destruct f as [|f]; [unfold B in *; lia|].
        intros E. apply (IH _ _ f) in E;
          cbn [d_ifs d_in_mac d_ciphertext content gpos good failbit eofbit
               negb andb]; trivial; try (unfold B in *; lia);
          [| rewrite length_firstn; lia].
        destruct E as [Hc Hmod].
        cbn [d_calls d_ifs d_nonce content gpos] in *.
        rewrite chunks_fuel_cons by (rewrite Hreg; unfold B in *; lia).
        rewrite firstn_firstn, skipn_firstn_comm.
        replace (Nat.min B m) with B by (unfold m; lia).
        cbn [calls_from]. rewrite Hc, <- app_assoc, skipn_add. fold R.
        replace (hpn - (gpos (d_ifs st) + B)) with (m - B) in * by (unfold m; lia).
        split; [reflexivity|].
        rewrite (@mod_step m B) by (unfold B, m in *; lia). exact Hmod.
    + rewrite read_short by assumption. fold R.
      cbv zeta. cbn [failbit orb].
      unfold decrypt_final_chunk, final_ciphertext.
      cbn [d_in_mac d_ifs gcount d_ciphertext tellg failbit d_nonce d_calls
           d_ostr d_state].
      rewrite M. cbn [negb].
      destruct (Nat.eqb_spec (length R) 0) as [H0|H0]; [lia|]. cbn [negb].
      rewrite store_length by (fold B; lia).
      destruct (Nat.eqb_spec (length R) (length (d_ciphertext st)));
        [fold B in Hbuf; lia|].
      cbn [negb]. rewrite resize_store_prefix by (fold B; lia).
      destruct (Z.gtb_spec (-1) (Z.of_nat hpn)); [lia|].
      cbn [Z.eqb Pos.eqb].
      assert (Hct : (if hashsize_ fc <? length R
                     then resize R (length R - hashsize_ fc) else []) =
                    firstn m R).
      { destruct (Nat.ltb_spec (hashsize_ fc) (length R)).
        - unfold resize. replace (_ - _ - _) with 0 by lia.
          rewrite app_nil_r. f_equal. lia.
        - replace m with 0 by lia. reflexivity. }
      rewrite Hct.
      destruct (Nat.eq_dec m 0) as [Hm0|Hm0].
      { rewrite aead_decrypt_short by (rewrite Hreg; lia).
        intros E. discriminate. }
      destruct (aead_decrypt _ _ _ _); [|intros E; discriminate].
      destruct (obad (write _ _)); [intros E; discriminate|].
      intros E. apply pair_Returned_inv in E. destruct E as [<- _].
      cbn [d_calls]. destruct f as [|f]; [lia|].
      rewrite chunks_fuel_single by (rewrite Hreg; lia).
      split; [reflexivity|]. rewrite Nat.mod_small by lia. exact Hm0.
Qed.


Lemma verified_opened fc c :
  verified fc c -> exists p, opened fc c = Some p.
Proof.
  unfold verified. destruct (opened fc c) as [p|]; [eauto | contradiction].
Qed.

(** When every block of the input that is left verifies and the last of
    them is a short one, the loops of [decrypt] return. *)
Lemma decrypt_loops_input_returns fc (hpn : nat) :
  (Z.of_nat (MACSIZE + blocksize_ fc) < two64)%Z ->
  forall f fuel st,
  good (d_ifs st) = true -> d_in_mac st = false ->
  gpos (d_ifs st) <= hpn ->
  hpn + hashsize_ fc = length (content (d_ifs st)) ->
  length (d_ciphertext st) = MACSIZE + blocksize_ fc ->
  obad (d_ostr st) = false ->
  hpn - gpos (d_ifs st) <= f -> hpn - gpos (d_ifs st) < fuel ->
  Forall (verified fc)
    (calls_from (d_nonce st)
       (chunks_fuel f (MACSIZE + blocksize_ fc)
          (firstn (hpn - gpos (d_ifs st))
             (skipn (gpos (d_ifs st)) (content (d_ifs st)))))) ->
  (hpn - gpos (d_ifs st)) mod (MACSIZE + blocksize_ fc) <> 0 ->
  snd (decrypt_loops fuel fc (Z.of_nat hpn) st) = Returned.
Proof.
  intros Hfit. pose proof MACSIZE_pos as HM.
  induction f as [|f IH]; intros fuel st G M Hg HL Hbuf Hsink Hf Hfuel Hv Hmod.
  - replace (hpn - gpos (d_ifs st)) with 0 in Hmod by lia.
    rewrite Nat.Div0.mod_0_l in Hmod. contradiction.
  - set (R := skipn (gpos (d_ifs st)) (content (d_ifs st))) in *.
    set (m := hpn - gpos (d_ifs st)) in *.
    set (B := MACSIZE + blocksize_ fc) in *.
    assert (Hm : 1 <= m)
      by (destruct (Nat.eq_dec m 0) as [H0|H0]; [|lia];
          rewrite H0, Nat.Div0.mod_0_l in Hmod; contradiction).
    assert (HR : length R = m + hashsize_ fc)
      by (unfold R, m; rewrite length_skipn; lia).
    assert (Hreg : length (firstn m R) = m) by (rewrite length_firstn; lia).
    destruct fuel as [|k]; [lia|].
    rewrite decrypt_loops_step. fold R B.
    destruct (le_lt_dec B m) as [Hblock|Hlast].
    + (* a full block *)
      rewrite chunks_fuel_cons in Hv by lia.
      rewrite firstn_firstn, skipn_firstn_comm in Hv.
      replace (Nat.min B m) with B in Hv by lia.
      cbn [calls_from] in Hv. inversion Hv as [|? ? Hv1 Hv2]; subst.
      apply verified_opened in Hv1. destruct Hv1 as [p Hp].
      unfold opened in Hp. cbn [call_input call_nonce] in Hp.
      rewrite read_enough by (trivial; fold R; lia). fold R.
      cbv zeta. cbn [failbit tellg gpos]. rewrite M. cbn [orb].
      rewrite store_full by (rewrite length_firstn; fold B in Hbuf; lia).
      destruct (Z.gtb_spec (Z.of_nat (gpos (d_ifs st) + B)) (Z.of_nat hpn));
        [unfold m in *; lia|].
      rewrite Hp. unfold write. rewrite Hsink. cbn [obad].
      apply IH;
        cbn [d_ifs d_in_mac d_ciphertext d_ostr d_nonce content gpos good
             failbit eofbit negb andb obad]; trivial;
        try (unfold m in *; lia).
      * rewrite length_firstn. fold B. lia.
      * rewrite skipn_add. fold R.
        replace (hpn - (gpos (d_ifs st) + B)) with (m - B) by (unfold m; lia).
        exact Hv2.
      * replace (hpn - (gpos (d_ifs st) + B)) with (m - B) by (unfold m; lia).
        rewrite <- (@mod_step m B) by lia. exact Hmod.
    + (* the short last block *)
      rewrite chunks_fuel_single in Hv by lia.
      cbn [calls_from] in Hv. inversion Hv as [|? ? Hv1 _]; subst.
      apply verified_opened in Hv1. destruct Hv1 as [p Hp].
      unfold opened in Hp. cbn [call_input call_nonce] in Hp.
      destruct (le_lt_dec B (length R)) as [Hfull|Hshort].
      * rewrite read_enough by assumption. fold R.
        cbv zeta. cbn [failbit tellg gpos]. rewrite M. cbn [orb].
        rewrite store_full by (rewrite length_firstn; fold B in Hbuf; lia).
        destruct (Z.gtb_spec (Z.of_nat (gpos (d_ifs st) + B)) (Z.of_nat hpn));
          [|unfold m in *; lia].
        rewrite length_firstn.
        replace (Nat.min B (length R)) with B by lia.
        rewrite size_sub_exact by (unfold B in *; lia).
        replace (B - Z.to_nat _) with m by (unfold m; lia).
        assert (Hct : resize (firstn B R) m = firstn m R).
        { unfold resize. rewrite firstn_firstn, length_firstn.
          replace (Nat.min m B) with m by lia.
          replace (m - Nat.min B (length R)) with 0 by lia.
          apply app_nil_r. }
        rewrite Hct, Hp. unfold write. rewrite Hsink. cbn [obad].
        destruct k as [|k]; [lia|].
        edestruct (@decrypt_loops_in_mac _ k fc (Z.of_nat hpn))
          as (ifs' & ct' & E1); [|rewrite E1]; reflexivity.
      * rewrite read_short by assumption. fold R.
        cbv zeta. cbn [failbit orb].
        unfold decrypt_final_chunk, final_ciphertext.
        cbn [d_in_mac d_ifs gcount d_ciphertext tellg failbit d_nonce d_calls
             d_ostr d_state].
        rewrite M. cbn [negb].
        destruct (Nat.eqb_spec (length R) 0) as [H0|H0]; [lia|]. cbn [negb].
        rewrite store_length by (fold B; lia).
        destruct (Nat.eqb_spec (length R) (length (d_ciphertext st)));
          [fold B in Hbuf; lia|].
        cbn [negb]. rewrite resize_store_prefix by (fold B; lia).
        destruct (Z.gtb_spec (-1) (Z.of_nat hpn)); [lia|].
        cbn [Z.eqb Pos.eqb].
        destruct (Nat.ltb_spec (hashsize_ fc) (length R)); [|lia].
        assert (Hct : resize R (length R - hashsize_ fc) = firstn m R).
        { unfold resize. replace (_ - _ - _) with 0 by lia.
          rewrite app_nil_r. f_equal. lia. }
        rewrite Hct, Hp. unfold write. rewrite Hsink. reflexivity.
Qed.


Lemma input_blocks_concat fc (data : data_t) :
  concat (input_blocks fc data) = firstn (length data - hashsize_ fc) data.
Proof.
  pose proof MACSIZE_pos as HM. unfold input_blocks, plaintext_chunks.
  apply chunks_fuel_concat; lia.
Qed.

(** C5.  The comparison of the recomputed digest with the last [hashsize_]
    bytes of the input decides the outcome of [decrypt] when every block of
    the input verifies and the last block is a short one: any difference
    gives "hash mismatch", equality makes [decrypt] return.  When the blocks
    end with a full block (or there is no block) the comparison is never
    reached: whatever the blocks and the digest are, [decrypt] ends with the
    exception the Engine throws. *)
Theorem decrypt_digest_comparison fc ifs ostr :
  valid_configuration fc ->
  failbit ifs = false -> hashsize_ fc <= length (content ifs) ->
  obad ostr = false ->
  let d := decrypt fc ifs ostr in
  let n := length (content ifs) - hashsize_ fc in
  let computed :=
    generichash (hashkey_ fc) (hashsize_ fc) (firstn n (content ifs)) in
  let stored := skipn n (content ifs) in
  (n mod (MACSIZE + blocksize_ fc) = 0 -> snd d = Thrown Engine_failure) /\
  (n mod (MACSIZE + blocksize_ fc) <> 0 ->
   Forall (verified fc)
     (calls_from (nonce_ fc) (input_blocks fc (content ifs))) ->
   (computed <> stored -> snd d = Thrown Decrypt_hash_mismatch) /\
   (computed = stored -> snd d = Returned)).
Proof.
  intros V F L Hsink. cbv zeta.
  destruct (valid_sizes V) as (_ & Hhs1 & Hhs & Hfit).
  set (n := length (content ifs) - hashsize_ fc).
  destruct (decrypt_blocks_cases fc ifs ostr Hhs) as [[[H|H] _] | [_ E]];
    [congruence | lia |].
  fold n in E. unfold decrypt. rewrite E. clear E.
  set (st0 := decrypt_start fc
                (mk_istream (content ifs) 0 false false (hashsize_ fc)) ostr).
  assert (Hn : n - gpos (d_ifs st0) = n) by (cbn; lia).
  assert (Hlen : length (firstn n (content ifs)) = n)
    by (rewrite length_firstn; unfold n; lia).
  split.
  - (* the blocks end on a full block *)
    intros Hmod.
    destruct (decrypt_loops _ _ _ st0) as [st r] eqn:EL.
    assert (Hw := EL). apply decrypt_loops_writes in Hw; [|exact Hsink].
    destruct Hw as (new & Hc & _ & Hw).
    assert (Hs := EL). apply decrypt_loops_stretch in Hs.
    destruct Hs as (new' & (Hc' & _) & Hr).
    assert (new' = new) by (rewrite Hc in Hc'; now apply app_inv_head in Hc').
    subst new'.
    destruct Hw as [[-> _] | [Hne Hall]]; [reflexivity|].
    assert (Hret : r = Returned)
      by (apply Hr; trivial; cbn; lia).
    subst r. exfalso.
    apply (@decrypt_loops_blocks fc n Hfit Hhs1 _ _ _ n) in EL;
      trivial; try (cbn; unfold n; lia); try apply zeros_length.
    destruct EL as [_ Hno]. rewrite Hn in Hno. contradiction.
  - (* the last block is a short one *)
    intros Hmod Hv.
    pose proof (@decrypt_loops_input_returns fc n Hfit n
                  (S (length (content ifs))) st0) as Hret.
    rewrite Hn in Hret. unfold input_blocks, plaintext_chunks in Hv.
    fold n in Hv. rewrite Hlen in Hv.
    destruct (decrypt_loops _ _ _ st0) as [st r] eqn:EL. cbn [snd] in Hret.
    assert (Er : r = Returned)
      by (apply Hret; trivial; try (cbn; unfold n; lia);
          try apply zeros_length).
    subst r.
    assert (Hs := EL). apply decrypt_loops_stretch in Hs.
    destruct Hs as (new & (Hc & _ & Hstr & _) & _).
    destruct (Hstr eq_refl) as (_ & _ & Hm & Hk).
    apply (@decrypt_loops_covers _ _ fc n Hfit) in EL;
      trivial; try (cbn; unfold n; lia); try apply zeros_length.
    destruct EL as (new2 & Hc2 & Hcat).
    assert (new2 = new) by (rewrite Hc in Hc2; now apply app_inv_head in Hc2).
    subst new2. rewrite Hn in Hcat. cbn [st0 decrypt_start d_ifs content gpos
      skipn d_state crypto_generichash_init hs_msg hs_key app] in Hcat, Hm, Hk.
    unfold crypto_generichash_final. rewrite zeros_length, Hk, Hm, Hcat.
    rewrite (hash_buffer _ V).
    set (computed := generichash _ _ _).
    destruct (data_eqb computed (skipn n (content ifs))) eqn:Eq;
      cbn [negb snd].
    + apply data_eqb_eq in Eq. split; [contradiction | reflexivity].
    + split; [reflexivity|]. intros Ec. apply data_eqb_eq in Ec. congruence.
Qed.

(** C10.  When [decrypt] ends with "hash mismatch", every call of the Engine
    it made has verified and the sink holds, after what it held before, the
    plaintext of every one of these calls, in order.  With a valid
    configuration these calls are the calls on all the blocks of the input,
    which together are all its bytes before the last [hashsize_] ones: the
    sink holds the plaintext of every block, the comparison of the digests
    coming after all the writes. *)
Theorem hash_mismatch_after_all_plaintext fc ifs ostr :
  snd (decrypt fc ifs ostr) = Thrown Decrypt_hash_mismatch ->
  (Forall (verified fc) (d_calls (fst (decrypt fc ifs ostr))) /\
   obuf (d_ostr (fst (decrypt fc ifs ostr))) =
     obuf ostr ++ recovered fc (d_calls (fst (decrypt fc ifs ostr)))) /\
  (valid_configuration fc ->
   hashsize_ fc <= length (content ifs) /\
   d_calls (fst (decrypt fc ifs ostr)) =
     calls_from (nonce_ fc) (input_blocks fc (content ifs)) /\
   concat (input_blocks fc (content ifs)) =
     firstn (length (content ifs) - hashsize_ fc) (content ifs) /\
   obuf (d_ostr (fst (decrypt fc ifs ostr))) =
     obuf ostr ++
     recovered fc (calls_from (nonce_ fc) (input_blocks fc (content ifs)))).
Proof.
  intros Hmis.
  assert (Hold : Forall (verified fc) (d_calls (fst (decrypt fc ifs ostr))) /\
                 obuf (d_ostr (fst (decrypt fc ifs ostr))) =
                 obuf ostr ++ recovered fc (d_calls (fst (decrypt fc ifs ostr)))).
  { revert Hmis. unfold decrypt.
    destruct (decrypt_blocks fc ifs ostr) as [[st hsv] oc] eqn:E.
    apply decrypt_blocks_stretch in E. destruct E as (_ & Hne & Hret).
    destruct oc.
    - destruct (Hret eq_refl) as (Hv & Ho & _).
      destruct (negb _); cbn [fst snd]; intros _; split; trivial.
    - cbn [fst snd]. intros Ht. contradiction.
    - cbn [fst snd]. discriminate. }
  split; [exact Hold|]. intros V.
  destruct (valid_sizes V) as (_ & Hhs1 & Hhs & Hfit).
  assert (Hcalls : hashsize_ fc <= length (content ifs) /\
            d_calls (fst (decrypt fc ifs ostr)) =
            calls_from (nonce_ fc) (input_blocks fc (content ifs))).
  { destruct (decrypt_blocks_cases fc ifs ostr Hhs) as [[_ E] | [[F L] E]].
    - rewrite E in Hmis. discriminate.
    - split; [exact L|]. revert Hmis. unfold decrypt. rewrite E. clear E.
      set (n := length (content ifs) - hashsize_ fc).
      set (st0 := decrypt_start fc
                    (mk_istream (content ifs) 0 false false (hashsize_ fc))
                    ostr).
      destruct (decrypt_loops _ _ _ st0) as [st r] eqn:EL.
      assert (Hs := EL). apply decrypt_loops_stretch in Hs.
      destruct Hs as (new & (_ & _ & _ & Hne & _) & _).
      destruct r; cbn [fst snd];
        [| intros Ht; contradiction | discriminate].
      intros _.
      apply (@decrypt_loops_blocks fc n Hfit Hhs1 _ _ _
               (length (firstn n (content ifs)))) in EL;
        trivial; try (cbn; unfold n; lia); try apply zeros_length;
        [| cbn; rewrite length_firstn; unfold n; lia].
      destruct EL as [Hc _].
      cbn [st0 decrypt_start d_calls d_ifs d_nonce content gpos skipn app]
        in Hc. rewrite Nat.sub_0_r in Hc.
      destruct (negb _); cbn [fst]; exact Hc. }
  destruct Hcalls as [L Hc]. destruct Hold as [_ Ho].
  repeat split; trivial.
  - apply input_blocks_concat.
  - now rewrite <- Hc.
Qed.

End InputBlocks.

(** The artifact [encrypt] writes for exactly one block: its one block
    verifies and its digest is the keyed hash of the block, and [decrypt]
    ends with the Engine's exception all the same; with a wrong digest the
    outcome is the same exception, not "hash mismatch". *)
Example decrypt_one_block_artifact :
  opened example_codec (mk_call (Sod := toy_sodium) 0 (firstn 18 example_aligned))
    = Some [x41; x42] /\
  skipn 18 example_aligned =
    generichash (hashkey_ example_codec) 16 (firstn 18 example_aligned) /\
  snd (decrypt example_codec (open_file example_aligned) example_sink)
    = Thrown Engine_failure /\
  snd (decrypt example_codec (open_file example_aligned_tampered) example_sink)
    = Thrown Engine_failure.
Proof. repeat split; vm_compute; reflexivity. Qed.

Lemma example_tampered_blocks_verified :
  Forall (verified example_codec)
    (calls_from (nonce_ example_codec)
       (input_blocks example_codec (content (open_file example_tampered)))).
Proof.
  replace (input_blocks example_codec (content (open_file example_tampered)))
    with [aead_encrypt header_ [x41] example_key 0]
    by (vm_compute; reflexivity).
  constructor; [|constructor].
  unfold verified, opened. cbn [call_input call_nonce key_ example_codec nonce_].
  rewrite aead_decrypt_encrypt. discriminate.
Qed.

Lemma decrypt_digest_comparison_witness :
  valid_configuration example_codec /\
  hashsize_ example_codec <= length (content (open_file example_aligned)) /\
  snd (decrypt example_codec (open_file example_aligned) example_sink) =
    Thrown Engine_failure /\
  snd (decrypt example_codec (open_file example_tampered) example_sink) =
    Thrown Decrypt_hash_mismatch.
Proof.
  split; [exact example_codec_valid|].
  assert (L : hashsize_ example_codec
              <= length (content (open_file example_aligned)))
    by (vm_compute; lia).
  assert (L' : hashsize_ example_codec
               <= length (content (open_file example_tampered)))
    by (vm_compute; lia).
  split; [exact L|]. split.
  - apply (proj1 (@decrypt_digest_comparison _ _ example_codec
                    (open_file example_aligned) example_sink
                    example_codec_valid eq_refl L eq_refl)).
    vm_compute. reflexivity.
  - apply (proj1 (proj2 (@decrypt_digest_comparison _ _ example_codec
                           (open_file example_tampered) example_sink
                           example_codec_valid eq_refl L' eq_refl)
                    ltac:(vm_compute; discriminate)
                    example_tampered_blocks_verified)).
    vm_compute. discriminate.
Defined.

Lemma hash_mismatch_after_all_plaintext_witness :
  snd (decrypt example_codec (open_file example_tampered) example_sink) =
    Thrown Decrypt_hash_mismatch /\
  valid_configuration example_codec /\
  d_calls (fst (decrypt example_codec (open_file example_tampered)
                  example_sink)) =
    calls_from (nonce_ example_codec)
      (input_blocks example_codec (content (open_file example_tampered))) /\
  obuf (d_ostr (fst (decrypt example_codec (open_file example_tampered)
                       example_sink))) =
    obuf example_sink ++
    recovered example_codec
      (calls_from (nonce_ example_codec)
         (input_blocks example_codec (content (open_file example_tampered)))).
Proof.
  assert (H : snd (decrypt example_codec (open_file example_tampered)
                     example_sink) = Thrown Decrypt_hash_mismatch)
    by (vm_compute; reflexivity).
  split; [exact H|]. split; [exact example_codec_valid|].
  destruct (proj2 (@hash_mismatch_after_all_plaintext _ _ example_codec
                     (open_file example_tampered) example_sink H)
              example_codec_valid) as (_ & H1 & _ & H2).
  split; [exact H1 | exact H2].
Defined.
